(** * Kabyle ASR server: the annexation corrector and the request pipeline

    A shallow embedding of [app.py]: the text post-processing function
    [post_process_kabyle_text] with the regular expressions it runs, and the
    Flask handler [transcribe] with its temporary files and its
    try/except/finally structure. *)

From Stdlib Require Import Ascii String NArith Lia.
From stdpp Require Import base decidable option numbers list sets gmap strings sorting.

Local Open Scope string_scope.
Local Open Scope nat_scope.
Local Open Scope list_scope.

(** ** Text *)

(** A Python [str] is a sequence of Unicode code points. *)
Abbreviation char := N (only parsing).
Abbreviation str := (list N) (only parsing).

Definition SPACE : char := 32%N.
Definition HYPHEN : char := 45%N.

(** Literals of the source are written as Rocq strings; the file is UTF-8, so
    a literal is decoded from its bytes to code points. *)
Fixpoint utf8 (bs : list N) : str :=
  match bs with
  | [] => []
  | b :: bs1 =>
      if (b <? 128)%N then b :: utf8 bs1
      else match bs1 with
      | [] => [b]
      | b2 :: bs2 =>
          if (b <? 224)%N then ((b - 192) * 64 + (b2 - 128))%N :: utf8 bs2
          else match bs2 with
          | [] => [b; b2]
          | b3 :: bs3 =>
              if (b <? 240)%N
              then ((b - 224) * 4096 + (b2 - 128) * 64 + (b3 - 128))%N :: utf8 bs3
              else match bs3 with
              | [] => [b; b2; b3]
              | b4 :: bs4 =>
                  ((b - 240) * 262144 + (b2 - 128) * 4096
                   + (b3 - 128) * 64 + (b4 - 128))%N :: utf8 bs4
              end
          end
      end
  end.

Definition py (lit : string) : str :=
  utf8 (N_of_ascii <$> list_ascii_of_string lit).

(** The letters the particle lexicon is written with: a to z and the latin
    small letter gamma (U+0263). *)
Definition kabyle_letter (c : char) : bool :=
  ((97 <=? c)%N && (c <=? 122)%N) || (c =? 611)%N.

(** The character tables of the Python runtime that the code relies on:
    [\w], [\s] (the same set of characters as [str.isspace], which
    [str.strip] uses), [str.isupper] on one character, and [str.lower].  They
    are not part of the repository; the development is parametric in them and
    only uses the facts below, all of which hold of CPython's tables. *)
Class Unicode := {
  is_word : char → bool;
  is_space : char → bool;
  is_upper : char → bool;
  lower : str → str;
  space_is_space : is_space SPACE = true;
  hyphen_not_space : is_space HYPHEN = false;
  space_not_upper : is_upper SPACE = false;
  hyphen_not_upper : is_upper HYPHEN = false;
  kabyle_letter_is_word c : kabyle_letter c = true → is_word c = true
}.

(** ** The particle lexicon (lines 38 to 50 of the source) *)

Definition PoPro : gset str := list_to_set (py <$>
  ["inu"; "inem"; "ines"; "nneɣ"; "ntex"; "nwen"; "nwent"; "nsen"; "nsent";
   "iw"; "ik"; "im"; "is"; "w"; "k"; "m"; "s"; "tneɣ"; "tentex"; "tsen"; "tsent"]).
Definition SpWo : gset str := list_to_set (py <$>
  ["deg"; "gar"; "ɣer"; "ɣur"; "fell"; "ɣef"; "ddaw"; "nnig"; "ɣid"; "aql";
   "sɣur"; "sennig"; "deffir"; "sdat"]).
Definition StPaSp : gset str := list_to_set (py <$>
  ["i"; "am"; "at"; "s"; "neɣ"; "aɣ"]).
Definition StPa : gset str := list_to_set (py <$>
  ["ak"; "as"; "aneɣ"; "anteɣ"; "awen"; "awent"; "asen"; "asent";
   "k"; "m"; "ntex"; "wen"; "went"; "sen"; "sent"; "akem"; "att";
   "aken"; "akent"; "aten"; "atent"]).
Definition DePa : gset str := list_to_set (py <$>
  ["a"; "agi"; "nni"; "ihin"; "nniden"]).
Definition DiPa : gset str := list_to_set (py <$> ["id"; "in"]).
Definition FuPa : gset str := list_to_set (py <$> ["ad"; "ara"]).
Definition DiObPa : gset str := list_to_set (py <$>
  ["yi"; "k"; "kem"; "t"; "tt"; "ay"; "ken"; "kent"; "ten"; "tent";
   "iyi"; "ik"; "ikem"; "it"; "itt"; "iken"; "ikent"; "iten"; "itent"]).
Definition InObPa : gset str := list_to_set (py <$>
  ["yi"; "yak"; "yam"; "yas"; "yaɣ"; "yawen"; "yawent"; "yasen"; "yasent"]).

(** The classes in the order the source unites them. *)
Definition particle_classes : list (gset str) :=
  [PoPro; SpWo; StPa; StPaSp; DePa; DiPa; FuPa; DiObPa; InObPa].

(** [PoPro.union(SpWo, StPa, StPaSp, DePa, DiPa, FuPa, DiObPa, InObPa)] *)
Definition all_annexable_particles : gset str :=
  PoPro ∪ SpWo ∪ StPa ∪ StPaSp ∪ DePa ∪ DiPa ∪ FuPa ∪ DiObPa ∪ InObPa.

(** [list(all_annexable_particles)] enumerates the set in the order of its
    hash table.  The hash of a [str] is salted per process, so the order is
    not a function of the program text: an enumeration is any duplicate-free
    listing of the members. *)
Definition iteration_order (order : list str) : Prop :=
  order ≡ₚ elements all_annexable_particles.

(** One such enumeration, used to evaluate the code on concrete inputs. *)
Definition canonical_order : list str := elements all_annexable_particles.

(** [sorted(xs, key=len, reverse=True)]: Python's sort is stable, also with
    [reverse=True], so members of equal length keep their relative order. *)
Fixpoint insert_by_len (w : str) (l : list str) : list str :=
  match l with
  | [] => [w]
  | v :: l' =>
      if length w <? length v then v :: insert_by_len w l' else w :: v :: l'
  end.

Definition sorted_by_len (l : list str) : list str :=
  foldr insert_by_len [] l.

Definition sorted_all_annexable (order : list str) : list str :=
  sorted_by_len order.

(** ** Regular expressions

    The fragment of Python's [re] that the source uses, with the semantics of
    its backtracking matcher: [matches] lists every way a pattern can match
    at a position, most preferred first, so that the match found at that
    position is the head of the list. *)

Inductive regex :=
| Eps                                   (* the empty pattern *)
| Lit (w : str)                         (* literal characters *)
| Boundary                              (* \b *)
| Many (p : char → bool) (lo : nat)     (* a class repeated lo or more times, greedy *)
| Group (n : nat) (r : regex)           (* capturing group number n *)
| Seq (r1 r2 : regex)                   (* r1 followed by r2 *)
| Alt (r1 r2 : regex).                  (* r1|r2, r1 tried first *)

(** The spans of the groups captured so far, the latest first. *)
Definition groups := list (nat * (nat * nat)).

Fixpoint group_span (n : nat) (g : groups) : option (nat * nat) :=
  match g with
  | [] => None
  | (m, span) :: g' => if decide (m = n) then Some span else group_span n g'
  end.

(** [a|b|...] as ['|'.join] builds it; the join of no word is the empty
    pattern. *)
Fixpoint alternation (ws : list str) : regex :=
  match ws with
  | [] => Eps
  | w :: ws' =>
      match ws' with
      | [] => Lit w
      | _ :: _ => Alt (Lit w) (alternation ws')
      end
  end.

(** Length of the longest prefix of [l] whose characters satisfy [p]. *)
Fixpoint run (p : char → bool) (l : str) : nat :=
  match l with
  | c :: l' => if p c then S (run p l') else 0
  | [] => 0
  end.

(** The repetition counts a greedy loop tries: [n], [n-1], ..., [lo]. *)
Definition counts_down (lo n : nat) : list nat :=
  reverse (seq lo (S n - lo)).

Definition prefix_at (w s : str) (i : nat) : bool :=
  bool_decide (take (length w) (drop i s) = w).

(** A replacement template: literal characters and group references. *)
Inductive piece := Text (c : char) | Ref (n : nat).

(** The argument of [post_process_kabyle_text] is whatever the model put in
    the [text] attribute: a [str], [None], or another object.  Of an object
    that is neither, the model keeps what the handler goes on to depend on:
    whether Flask's JSON provider can serialise it. *)
Inductive pyval := PyStr (s : str) | PyNone | PyObject (serialisable : bool).

Section Engine.
Context `{Unicode}.

Definition word_at (s : str) (i : nat) : bool :=
  match s !! i with
  | Some c => is_word c
  | None => false
  end.

(** [\b]: exactly one of the characters before and after the position is a
    word character; outside the string counts as a non-word character. *)
Definition at_boundary (s : str) (i : nat) : bool :=
  negb (eqb match i with 0 => false | S j => word_at s j end (word_at s i)).

Fixpoint matches (s : str) (r : regex) (i : nat) (g : groups)
  : list (nat * groups) :=
  match r with
  | Eps => [(i, g)]
  | Lit w => if prefix_at w s i then [(i + length w, g)] else []
  | Boundary => if at_boundary s i then [(i, g)] else []
  | Many p lo => (λ n, (i + n, g)) <$> counts_down lo (run p (drop i s))
  | Group n r' => (λ m, (m.1, (n, (i, m.1)) :: m.2)) <$> matches s r' i g
  | Seq r1 r2 => matches s r1 i g ≫= λ m, matches s r2 m.1 m.2
  | Alt r1 r2 => matches s r1 i g ++ matches s r2 i g
  end.

(** The match of [r] that starts at position [i], if there is one. *)
Definition match_at (s : str) (r : regex) (i : nat) : option (nat * groups) :=
  head (matches s r i []).

Definition expand (s : str) (g : groups) (t : list piece) : str :=
  t ≫= λ p,
    match p with
    | Text c => [c]
    | Ref n =>
        match group_span n g with
        | Some (a, b) => take (b - a) (drop a s)
        | None => []
        end
    end.

(** The loop of [re.sub(r, t, s)], at position [i] with [rest] the
    characters from [i] on.  [skip] counts the characters of the last match
    that are still to be passed over; at [skip = 0] a match is looked for
    at [i]: a match is replaced by the expanded template and the scan
    resumes at its end, otherwise the character at [i] is copied.  An empty
    match is replaced and the scan moves on by one character. *)
Fixpoint sub_from (s : str) (r : regex) (t : list piece)
    (i : nat) (rest : str) (skip : nat) {struct rest} : str :=
  match skip with
  | S k =>
      match rest with
      | [] => []
      | _ :: rest' => sub_from s r t (S i) rest' k
      end
  | 0 =>
      match match_at s r i with
      | Some (j, g) =>
          expand s g t ++
          match rest with
          | [] => []
          | c :: rest' =>
              if decide (j ≤ i) then c :: sub_from s r t (S i) rest' 0
              else sub_from s r t (S i) rest' (j - i - 1)
          end
      | None =>
          match rest with
          | [] => []
          | c :: rest' => c :: sub_from s r t (S i) rest' 0
          end
      end
  end.

Definition re_sub (r : regex) (t : list piece) (s : str) : str :=
  sub_from s r t 0 s 0.

(** [str.strip()] *)
Fixpoint lstrip (s : str) : str :=
  match s with
  | c :: s' => if is_space c then lstrip s' else s
  | [] => []
  end.

Definition rstrip (s : str) : str := reverse (lstrip (reverse s)).

Definition strip (s : str) : str := rstrip (lstrip s).

(** ** The corrector (lines 21 to 64) *)

(** [r'\b(\w{2,})\s+(' + '|'.join(sorted_all_annexable) + r')\b'].  The
    particles are made of letters, so each of them stands for itself in the
    pattern. *)
Definition annexation_pattern (particles : list str) : regex :=
  Seq Boundary
    (Seq (Group 1 (Many is_word 2))
      (Seq (Many is_space 1)
        (Seq (Group 2 (alternation particles)) Boundary))).

(** [r'\1-\2'] *)
Definition annexation_template : list piece := [Ref 1; Text HYPHEN; Ref 2].

(** The body of the function on a [str] argument.  [order] is the order in
    which [list(all_annexable_particles)] enumerated the set. *)
Definition correct (order : list str) (text : str) : str :=
  match text with
  | [] => []
  | _ :: _ =>
      let text := lower text in
      let text :=
        re_sub (annexation_pattern (sorted_all_annexable order))
          annexation_template text in
      let text := strip (re_sub (Many is_space 1) [Text SPACE] text) in
      re_sub (Many (λ c, bool_decide (c = HYPHEN)) 1) [Text HYPHEN] text
  end.

Definition post_process_kabyle_text (order : list str) (text : pyval) : pyval :=
  match text with
  | PyStr s => PyStr (correct order s)
  | PyNone => PyNone
  | PyObject o => PyObject o
  end.

End Engine.

(** ** The request pipeline (lines 66 to 132)

    The handler runs against a disk holding temporary files and against
    external collaborators (werkzeug, pydub, NeMo, the operating system) that
    may raise.  What they do on one request is an input of the model;
    messages printed to the console are left out. *)

Definition path := nat.

Inductive exn :=
  OSError | UploadError | DecodeError | ExportError | ModelError | TypeError.

(** An entry of the list returned by [asr_model.transcribe]: its truth value
    and its [text] attribute, if it has one. *)
Record item := { truthy : bool; text : option pyval }.

(** The loaded model, as it behaves on the request: the list it returns, or
    [None] when it raises. *)
Record model := { asr_transcribe : option (list item) }.

Record upload := { filename : string; payload : list N }.

(** [request.files]: the [audio] field, when the form has one. *)
Record request := { audio : option upload }.

Inductive body := Error (msg : string) | Transcription (t : pyval).

Record response := { json : body; status : nat }.

(** Which of the external calls of one run succeed. *)
Record externals := {
  tmp_input_ok : bool;        (* the first NamedTemporaryFile *)
  save_ok : bool;             (* audio_file.save *)
  decode_ok : bool;           (* AudioSegment.from_file, set_frame_rate, set_channels *)
  tmp_processed_ok : bool;    (* the second NamedTemporaryFile *)
  export_ok : bool;           (* processed_audio.export *)
  remove_ok : path → bool     (* os.remove *)
}.

(** The temporary files on disk and the two local variables that the
    [finally] block reads. *)
Record state := {
  disk : gset path;
  temp_input_file : option path;
  processed_file_path : option path
}.

Inductive outcome (A : Type) := Done (a : A) | Raised (e : exn).
Arguments Done {A} a.
Arguments Raised {A} e.

Definition M (A : Type) : Type := state → outcome A * state.

Definition ret {A} (a : A) : M A := λ σ, (Done a, σ).

Definition bind {A B} (m : M A) (k : A → M B) : M B :=
  λ σ, match m σ with
       | (Done a, σ') => k a σ'
       | (Raised e, σ') => (Raised e, σ')
       end.

#[export] Instance M_bind : MBind M := λ A B k m, bind m k.

Notation "'let!' x ':=' m 'in' k" := (bind m (λ x, k))
  (at level 10, x name, m at level 100, k at level 200, only parsing).

Definition raise {A} (e : exn) : M A := λ σ, (Raised e, σ).

(** A call that does not touch the state. *)
Definition lift {A} (r : outcome A) : M A := λ σ, (r, σ).

(** [try: body except Exception as e: handler] *)
Definition try_except {A} (body : M A) (handler : exn → M A) : M A :=
  λ σ, match body σ with
       | (Raised e, σ') => handler e σ'
       | done => done
       end.

(** [try: body finally: fin]: the outcome of [body] stands unless [fin]
    raises, in which case the exception of [fin] replaces it. *)
Definition try_finally {A} (body : M A) (fin : M unit) : M A :=
  λ σ, match body σ with
       | (r, σ') =>
           match fin σ' with
           | (Done _, σ'') => (r, σ'')
           | (Raised e, σ'') => (Raised e, σ'')
           end
       end.

(** An external call that returns nothing and may raise. *)
Definition call (ok : bool) (e : exn) : M unit :=
  λ σ, (if ok then Done () else Raised e, σ).

(** [tempfile.NamedTemporaryFile(delete=False, suffix=".wav")] used as a
    context manager: a file with a new name is created on entry and is left
    on disk on exit. *)
Definition named_temporary_file (ok : bool) : M path :=
  λ σ, if ok
       then let p := fresh (disk σ) in
            (Done p, {| disk := {[p]} ∪ disk σ;
                        temp_input_file := temp_input_file σ;
                        processed_file_path := processed_file_path σ |})
       else (Raised OSError, σ).

Definition set_temp_input_file (p : path) : M unit :=
  λ σ, (Done (), {| disk := disk σ; temp_input_file := Some p;
                    processed_file_path := processed_file_path σ |}).

Definition set_processed_file_path (p : path) : M unit :=
  λ σ, (Done (), {| disk := disk σ; temp_input_file := temp_input_file σ;
                    processed_file_path := Some p |}).

(** [os.path.exists] and [os.remove]; the latter raises when the operating
    system refuses or when the file is not there. *)
Definition os_path_exists (p : path) : M bool :=
  λ σ, (Done (bool_decide (p ∈ disk σ)), σ).

Definition os_remove (ok : path → bool) (p : path) : M unit :=
  λ σ, if ok p && bool_decide (p ∈ disk σ)
       then (Done (), {| disk := disk σ ∖ {[p]};
                         temp_input_file := temp_input_file σ;
                         processed_file_path := processed_file_path σ |})
       else (Raised OSError, σ).

(** [if name and os.path.exists(name): os.remove(name)] *)
Definition remove_if_exists (ok : path → bool) (name : option path) : M unit :=
  match name with
  | None => ret ()
  | Some p => let! e := os_path_exists p in if e then os_remove ok p else ret ()
  end.

(** The [finally] block (lines 127 to 132). *)
Definition cleanup (x : externals) : M unit :=
  λ σ, (remove_if_exists (remove_ok x) (temp_input_file σ);;
        remove_if_exists (remove_ok x) (processed_file_path σ)) σ.

(** What [json.dumps] accepts: a [str] and [None] always, another object
    only if the JSON provider knows how to serialise it. *)
Definition serialisable (v : pyval) : bool :=
  match v with
  | PyStr _ | PyNone => true
  | PyObject ok => ok
  end.

(** [jsonify({...})], with the status the handler returns beside it.  The
    body is serialised at once, and [jsonify] raises [TypeError] when it
    holds a value that cannot be serialised; the error messages are string
    literals. *)
Definition jsonify (b : body) (code : nat) : outcome response :=
  match b with
  | Error _ => Done {| json := b; status := code |}
  | Transcription t =>
      if serialisable t then Done {| json := b; status := code |}
      else Raised TypeError
  end.

Section Pipeline.
Context `{Unicode}.

(** The [try] block (lines 91 to 122). *)
Definition handle (m : model) (order : list str) (x : externals) : M response :=
  let! tmp_audio := named_temporary_file (tmp_input_ok x) in
  call (save_ok x) UploadError;;
  set_temp_input_file tmp_audio;;
  let! normalized := try_except
    (call (decode_ok x) DecodeError;;
     let! processed_tmp := named_temporary_file (tmp_processed_ok x) in
     call (export_ok x) ExportError;;
     set_processed_file_path processed_tmp;;
     ret None)
    (λ _, let! failed := lift (jsonify (Error
       "Failed to process audio file. Please ensure it's a valid audio format.") 500) in
          ret (Some failed)) in
  match normalized with
  | Some failed => ret failed
  | None =>
      let! transcribed := try_except
        (match asr_transcribe m with
         | Some transcription_list => ret (inr transcription_list)
         | None => raise ModelError
         end)
        (λ _, let! failed := lift (jsonify (Error
           "Transcription failed due to a model error.") 500) in
              ret (inl failed)) in
      match transcribed with
      | inl failed => ret failed
      | inr transcription_list =>
          match transcription_list with
          | first :: _ =>
              match truthy first, text first with
              | true, Some raw_transcription =>
                  let final_transcription :=
                    post_process_kabyle_text order raw_transcription in
                  lift (jsonify (Transcription final_transcription) 200)
              | _, _ =>
                  lift (jsonify (Error "Transcription failed. No text returned.") 500)
              end
          | [] => lift (jsonify (Error "Transcription failed. No text returned.") 500)
          end
      end
  end.

(** The handler of [POST /transcribe]: the response it returns, or the
    exception that escapes it, and the disk it leaves. *)
Definition transcribe (asr_model : option model) (order : list str)
    (req : request) (x : externals) (d : gset path)
  : outcome response * gset path :=
  match asr_model with
  | None => (jsonify (Error "ASR model is not loaded.") 503, d)
  | Some m =>
      match audio req with
      | None => (jsonify (Error "No audio file provided") 400, d)
      | Some audio_file =>
          if decide (filename audio_file = "")
          then (jsonify (Error "No selected file") 400, d)
          else
            let run :=
              try_finally
                (try_except (handle m order x)
                   (λ _, lift (jsonify (Error
                      "An internal server error occurred.") 500)))
                (cleanup x) in
            match run {| disk := d; temp_input_file := None;
                         processed_file_path := None |} with
            | (r, σ) => (r, disk σ)
            end
      end
  end.

(** The status the client sees: an exception that escapes the handler is
    answered by Flask with status 500. *)
Definition status_seen (r : outcome response) : nat :=
  match r with
  | Done resp => status resp
  | Raised _ => 500
  end.

End Pipeline.

(** ** A concrete character table

    CPython's tables on the characters the examples below are written with:
    Basic Latin, the Kabyle letters gamma (U+0263, upper case U+0194), and
    U+2102 (double-struck capital C, which has the Uppercase property and no
    lower-case mapping).  The white-space set is Python's complete set.  Any
    other code point is taken to be a caseless symbol, which is not what
    CPython says of letters and digits outside these ranges: the table is
    used below only on texts written with the characters listed. *)
Module Latin.
Definition between (a b c : N) : bool := ((a <=? c) && (c <=? b))%N.

Definition is_word (c : char) : bool :=
  between 48 57 c || between 65 90 c || (c =? 95)%N || between 97 122 c
  || (c =? 611)%N || (c =? 404)%N || (c =? 8450)%N.

Definition is_space (c : char) : bool :=
  between 9 13 c || between 28 32 c || (c =? 133)%N || (c =? 160)%N
  || (c =? 5760)%N || between 8192 8202 c || (c =? 8232)%N || (c =? 8233)%N
  || (c =? 8239)%N || (c =? 8287)%N || (c =? 12288)%N.

Definition is_upper (c : char) : bool :=
  between 65 90 c || (c =? 404)%N || (c =? 8450)%N.

Definition lower_char (c : char) : char :=
  if between 65 90 c then (c + 32)%N
  else if (c =? 404)%N then 611%N
  else c.

Definition lower (s : str) : str := lower_char <$> s.

End Latin.

#[export] Instance latin : Unicode.
Proof.
  refine {| is_word := Latin.is_word; is_space := Latin.is_space;
            is_upper := Latin.is_upper; lower := Latin.lower |};
    [reflexivity | reflexivity | reflexivity | reflexivity |].
  unfold kabyle_letter, Latin.is_word, Latin.between. intros c Hc.
  apply orb_true_iff in Hc as [Hc | Hc]; rewrite Hc; by rewrite !orb_true_r.
Defined.

(** ** Notions used to state the properties *)

(** Longer or equally long members come first. *)
Definition by_len : relation str := λ a b, length b ≤ length a.

Section Notions.
Context `{Unicode}.

(** What the tail of the annexation pattern, [(a|b|...)\b], yields for one
    alternative. *)
Definition particle_match (s : str) (i : nat) (g : groups) (w : str)
  : list (nat * groups) :=
  if prefix_at w s i && at_boundary s (i + length w)
  then [(i + length w, (2, (i, i + length w)) :: g)]
  else [].

(** A non-empty string of word characters. *)
Definition word_string (w : str) : Prop :=
  w ≠ [] ∧ Forall (λ c, is_word c = true) w.

(** What [re.sub] makes of a text when the pattern is [p+] and the
    replacement is the single character [x]: every maximal run of characters
    in [p] becomes one [x].  [inrun] tells that the previous character was in
    [p]. *)
Fixpoint squeeze (p : char → bool) (x : char) (inrun : bool) (s : str) : str :=
  match s with
  | [] => []
  | c :: s' =>
      if p c
      then if inrun then squeeze p x true s' else x :: squeeze p x true s'
      else c :: squeeze p x false s'
  end.

(** Every character of [s] that is in [q] is [x], and no two of them are
    adjacent; with [after_q], the text moreover follows a character in [q]. *)
Fixpoint tidy (q : char → bool) (x : char) (after_q : bool) (s : str) : bool :=
  match s with
  | [] => true
  | c :: s' =>
      if q c then negb after_q && bool_decide (c = x) && tidy q x true s'
      else tidy q x false s'
  end.

Definition is_hyphen (c : char) : bool := bool_decide (c = HYPHEN).

End Notions.

(** Every external call up to the transcription succeeds. *)
Definition stages_ok (x : externals) : Prop :=
  tmp_input_ok x = true ∧ save_ok x = true ∧ decode_ok x = true
  ∧ tmp_processed_ok x = true ∧ export_ok x = true.

(** The test of line 115 fails: the list returned by the model is empty,
    or its first entry is false, or that entry has no [text] attribute. *)
Definition result_check_fails (l : list item) : Prop :=
  match l with
  | [] => True
  | first :: _ => truthy first = false ∨ text first = None
  end.

(** A missing or malformed transcript in the words of the specification:
    an empty result list, or a result with no usable text field, that is, a
    first entry with no [text] attribute or with one that does not hold a
    string. *)
Definition no_usable_text (l : list item) : Prop :=
  match l with
  | [] => True
  | first :: _ =>
      match text first with
      | Some (PyStr _) => False
      | _ => True
      end
  end.

(** An upload with a file name and a payload, and one with a file name and
    an empty payload. *)
Definition clip : request :=
  {| audio := Some {| filename := "clip.wav"; payload := [82; 73; 70; 70]%N |} |}.

Definition empty_clip : request :=
  {| audio := Some {| filename := "clip.wav"; payload := [] |} |}.

(** External collaborators that all succeed, and runs in which exactly one
    call fails. *)
Definition all_ok : externals :=
  {| tmp_input_ok := true; save_ok := true; decode_ok := true;
     tmp_processed_ok := true; export_ok := true; remove_ok := λ _, true |}.

Definition save_fails : externals :=
  {| tmp_input_ok := true; save_ok := false; decode_ok := true;
     tmp_processed_ok := true; export_ok := true; remove_ok := λ _, true |}.

Definition decode_fails : externals :=
  {| tmp_input_ok := true; save_ok := true; decode_ok := false;
     tmp_processed_ok := true; export_ok := true; remove_ok := λ _, true |}.

Definition export_fails : externals :=
  {| tmp_input_ok := true; save_ok := true; decode_ok := true;
     tmp_processed_ok := true; export_ok := false; remove_ok := λ _, true |}.

Definition remove_fails : externals :=
  {| tmp_input_ok := true; save_ok := true; decode_ok := true;
     tmp_processed_ok := true; export_ok := true; remove_ok := λ _, false |}.

(** A model that hears ["axxam ines"], one that returns an empty list, one
    whose result has [None] for text, and one whose result has for text an
    object that cannot be serialised. *)
Definition hears_axxam_ines : model :=
  {| asr_transcribe :=
       Some [{| truthy := true; text := Some (PyStr (py "axxam ines")) |}] |}.

Definition hears_nothing : model := {| asr_transcribe := Some [] |}.

Definition returns_none_text : model :=
  {| asr_transcribe := Some [{| truthy := true; text := Some PyNone |}] |}.

Definition returns_object_text : model :=
  {| asr_transcribe :=
       Some [{| truthy := true; text := Some (PyObject false) |}] |}.

(** ** Notions used to state further properties *)

(** Lines 66 to 74: the model is loaded once, when the module is imported;
    when [from_pretrained] raises, [asr_model] is [None]. *)
Definition load_asr_model (from_pretrained : outcome model) : option model :=
  match from_pretrained with
  | Done m => Some m
  | Raised _ => None
  end.

(** A run in which nothing goes wrong: the model is loaded, the upload has
    a name, every external call succeeds, the first entry of the model's
    result is true and has a [text] attribute holding [raw], which can be
    serialised, and both temporary files are removed. *)
Definition run_succeeds (asr_model : option model) (req : request)
    (x : externals) (d : gset path) (raw : pyval) : Prop :=
  ∃ m f first rest,
    asr_model = Some m ∧ audio req = Some f ∧ filename f ≠ ""
    ∧ stages_ok x
    ∧ asr_transcribe m = Some (first :: rest)
    ∧ truthy first = true ∧ text first = Some raw
    ∧ serialisable raw = true
    ∧ remove_ok x (fresh d) = true
    ∧ remove_ok x (fresh ({[fresh d]} ∪ d)) = true.

Section FurtherNotions.
Context `{Unicode}.

(** The response the [try] block with its handlers settles on, stage by
    stage; the last stage is [jsonify], whose [TypeError] the outer [except]
    answers. *)
Definition answer (m : model) (order : list str) (x : externals) : response :=
  if negb (tmp_input_ok x && save_ok x)
  then {| json := Error "An internal server error occurred."; status := 500 |}
  else if negb (decode_ok x && tmp_processed_ok x && export_ok x)
  then {| json := Error
    "Failed to process audio file. Please ensure it's a valid audio format.";
          status := 500 |}
  else match asr_transcribe m with
  | None => {| json := Error "Transcription failed due to a model error.";
               status := 500 |}
  | Some [] => {| json := Error "Transcription failed. No text returned.";
                  status := 500 |}
  | Some (first :: _) =>
      match truthy first, text first with
      | true, Some raw =>
          if serialisable raw
          then {| json := Transcription (post_process_kabyle_text order raw);
                  status := 200 |}
          else {| json := Error "An internal server error occurred.";
                  status := 500 |}
      | _, _ => {| json := Error "Transcription failed. No text returned.";
                   status := 500 |}
      end
  end.

End FurtherNotions.

Section TextNotions.
Context `{Unicode}.

(** The characters of a text that are neither white space nor hyphens, in
    order. *)
Definition kept (s : str) : str :=
  filter (λ c, is_space c = false ∧ c ≠ HYPHEN) s.

(** A fact about the character tables that holds of CPython's: no
    white-space character is a word character. *)
Definition space_not_word : Prop :=
  ∀ c, is_space c = true → is_word c = false.

(** The longest run of word characters that starts at position [i]. *)
Definition word_run (s : str) (i : nat) : str :=
  take (run is_word (drop i s)) (drop i s).

(** The annexation rule read word by word: position [i] is a word boundary,
    the word characters from [i] up to [a] are at least two, the white space
    from [a] up to [b] is at least one character, and the whole word from
    [b] up to [j] is a particle.  The result is the end of the particle and
    the spans of the two groups. *)
Definition annex_at (s : str) (ws : list str) (i : nat)
  : option (nat * groups) :=
  let a := i + run is_word (drop i s) in
  let b := a + run is_space (drop a s) in
  let j := b + run is_word (drop b s) in
  if at_boundary s i && bool_decide (i + 2 ≤ a) && bool_decide (a + 1 ≤ b)
     && bool_decide (word_run s b ∈ ws)
  then Some (j, [(2, (b, j)); (1, (i, a))])
  else None.

(** A non-empty string of word characters without hyphen. *)
Definition plain_word (u : str) : Prop :=
  u ≠ [] ∧ Forall (λ c, is_word c = true ∧ c ≠ HYPHEN) u.

End TextNotions.

(** * Properties *)

(** ** The sorted particle list *)

Lemma insert_by_len_perm w l : insert_by_len w l ≡ₚ w :: l.
Proof.
  induction l as [|v l IH]; simpl; [done|].
  case_match; [|done]. rewrite IH. apply Permutation_swap.
Qed.

Lemma sorted_by_len_perm l : sorted_by_len l ≡ₚ l.
Proof.
  induction l as [|w l IH]; simpl; [done|].
  by rewrite insert_by_len_perm, IH.
Qed.

Lemma insert_by_len_sorted w l :
  StronglySorted by_len l → StronglySorted by_len (insert_by_len w l).
Proof.
  induction 1 as [|v l Hl IH Hv]; simpl.
  - repeat constructor.
  - destruct (length w <? length v) eqn:Hlen.
    + apply Nat.ltb_lt in Hlen. constructor; [done|].
      rewrite insert_by_len_perm. constructor; [unfold by_len; lia | done].
    + apply Nat.ltb_ge in Hlen. constructor; [by constructor|].
      constructor; [done|].
      eapply Forall_impl; [exact Hv|]. unfold by_len. intros x ?. lia.
Qed.

Lemma sorted_by_len_sorted l : StronglySorted by_len (sorted_by_len l).
Proof.
  induction l as [|w l IH]; simpl; [constructor|].
  by apply insert_by_len_sorted.
Qed.

Lemma filter_insert_by_len n w l :
  filter (λ v, length v = n) (insert_by_len w l)
  = filter (λ v, length v = n) (w :: l).
Proof.
  induction l as [|v l IH]; [done|]. cbn [insert_by_len].
  destruct (length w <? length v) eqn:Hlen; [|done].
  apply Nat.ltb_lt in Hlen.
  rewrite (filter_cons _ v), IH, !filter_cons.
  repeat case_decide; try done; lia.
Qed.

(** The sort is stable: members of one length stay in their original
    order. *)
Lemma sorted_by_len_stable n l :
  filter (λ v, length v = n) (sorted_by_len l) = filter (λ v, length v = n) l.
Proof.
  induction l as [|w l IH]; [done|]. cbn [sorted_by_len foldr].
  fold (sorted_by_len l).
  by rewrite filter_insert_by_len, !filter_cons, IH.
Qed.

Lemma all_annexable_particles_union :
  all_annexable_particles = ⋃ particle_classes.
Proof.
  unfold all_annexable_particles, particle_classes.
  generalize PoPro, SpWo, StPa, StPaSp, DePa, DiPa, FuPa, DiObPa, InObPa.
  intros. simpl. rewrite (right_id_L ∅ (∪)). by rewrite !(assoc_L (∪)).
Qed.

Section Facts.
Context `{Unicode}.

(** The alternatives of [a|b|...] are tried in the order of the list. *)
Lemma matches_alternation s ws i g :
  ws ≠ [] →
  matches s (alternation ws) i g = ws ≫= λ w, matches s (Lit w) i g.
Proof.
  induction ws as [|w ws IH]; [done|]. intros _.
  destruct ws as [|w' ws].
  - simpl. by rewrite app_nil_r.
  - change (alternation (w :: w' :: ws))
      with (Alt (Lit w) (alternation (w' :: ws))).
    cbn [matches]. by rewrite IH, bind_cons.
Qed.

(** *** Literals between word boundaries *)

Lemma prefix_at_lookup w s i k c :
  prefix_at w s i = true → w !! k = Some c → s !! (i + k) = Some c.
Proof.
  unfold prefix_at. intros Hw%bool_decide_eq_true Hk.
  rewrite <- Hw in Hk. apply lookup_take_Some in Hk as [Hk _].
  by rewrite lookup_drop in Hk.
Qed.

(** A word that matches at [i] and is shorter than another word matching at
    [i] does not end at a boundary: the next character belongs to the longer
    word. *)
Lemma no_boundary_inside a b s i :
  a ≠ [] → Forall (λ c, is_word c = true) a → Forall (λ c, is_word c = true) b →
  prefix_at a s i = true → prefix_at b s i = true →
  length a < length b →
  at_boundary s (i + length a) = false.
Proof.
  intros Ha Hwa Hwb Hpa Hpb Hlen.
  assert (0 < length a) as Hpos by (destruct a; [done|simpl; lia]).
  destruct (lookup_lt_is_Some_2 b (length a) Hlen) as [c Hc].
  destruct (lookup_lt_is_Some_2 a (pred (length a))) as [c' Hc']; [lia|].
  pose proof (prefix_at_lookup _ _ _ _ _ Hpb Hc) as Hs.
  pose proof (prefix_at_lookup _ _ _ _ _ Hpa Hc') as Hs'.
  unfold at_boundary.
  destruct (i + length a) as [|j] eqn:Hj; [lia|].
  replace (i + pred (length a)) with j in Hs' by lia.
  unfold word_at. rewrite Hs, Hs'.
  rewrite (Forall_lookup_1 _ _ _ _ Hwb Hc), (Forall_lookup_1 _ _ _ _ Hwa Hc').
  done.
Qed.

Lemma literal_at_boundary_unique a b s i :
  a ≠ [] → b ≠ [] →
  Forall (λ c, is_word c = true) a → Forall (λ c, is_word c = true) b →
  prefix_at a s i = true → prefix_at b s i = true →
  at_boundary s (i + length a) = true → at_boundary s (i + length b) = true →
  a = b.
Proof.
  intros Ha Hb Hwa Hwb Hpa Hpb Hba Hbb.
  destruct (lt_eq_lt_dec (length a) (length b)) as [[Hlt | Heq] | Hlt].
  - by rewrite (no_boundary_inside a b s i) in Hba.
  - unfold prefix_at in Hpa, Hpb.
    apply bool_decide_eq_true in Hpa, Hpb. congruence.
  - by rewrite (no_boundary_inside b a s i) in Hbb.
Qed.

Lemma matches_particle_tail s ws i g :
  ws ≠ [] →
  matches s (Seq (Group 2 (alternation ws)) Boundary) i g
  = ws ≫= particle_match s i g.
Proof.
  intros Hws. cbn [matches]. rewrite matches_alternation by done. clear Hws.
  induction ws as [|w ws IH]; [done|].
  rewrite !bind_cons, fmap_app, bind_app, IH. f_equal.
  unfold particle_match. cbn [matches].
  destruct (prefix_at w s i); simpl; [|done].
  destruct (at_boundary s (i + length w)); done.
Qed.

Lemma bind_comm_perm {A B} (f : A → list B) (l l' : list A) :
  l ≡ₚ l' →
  (∀ a b, a ∈ l → b ∈ l → f a ++ f b = f b ++ f a) →
  l ≫= f = l' ≫= f.
Proof.
  induction 1 as [|x l l' Hl IH|x y l|l l' l'' Hl IH Hl' IH']; intros Hf.
  - done.
  - rewrite !bind_cons, IH; [done|]. intros a b ??. apply Hf; by right.
  - rewrite !bind_cons, !(assoc_L (++)). f_equal.
    apply Hf; [left | right; left].
  - rewrite IH by done. apply IH'. intros a b Ha Hb.
    apply Hf; by rewrite Hl.
Qed.

Lemma particle_match_comm s i g a b :
  word_string a → word_string b →
  particle_match s i g a ++ particle_match s i g b
  = particle_match s i g b ++ particle_match s i g a.
Proof.
  intros [Ha Hwa] [Hb Hwb]. unfold particle_match.
  destruct (prefix_at a s i) eqn:Hpa; simpl; [|by rewrite app_nil_r].
  destruct (at_boundary s (i + length a)) eqn:Hba; [|by rewrite app_nil_r].
  destruct (prefix_at b s i) eqn:Hpb; simpl; [|done].
  destruct (at_boundary s (i + length b)) eqn:Hbb; [|done].
  by rewrite (literal_at_boundary_unique a b s i).
Qed.

(** The match of the annexation pattern at a position does not depend on
    the order of the alternatives. *)
Lemma matches_annexation_perm s ws ws' i g :
  ws ≡ₚ ws' → Forall word_string ws →
  matches s (annexation_pattern ws) i g
  = matches s (annexation_pattern ws') i g.
Proof.
  intros Hperm Hws. unfold annexation_pattern.
  cbn [matches]. apply list_bind_ext; [|done]. intros m0.
  apply list_bind_ext; [|done]. intros m1.
  apply list_bind_ext; [|done]. intros m2.
  destruct ws as [|w ws].
  { by apply Permutation_nil_l in Hperm as ->. }
  pose proof (matches_particle_tail s (w :: ws) m2.1 m2.2) as E.
  cbn [matches] in E. rewrite E by done.
  assert (ws' ≠ []) as Hne.
  { intros ->. by apply Permutation_nil_r in Hperm. }
  pose proof (matches_particle_tail s ws' m2.1 m2.2) as E'.
  cbn [matches] in E'. rewrite E' by done.
  apply bind_comm_perm; [done|]. intros a b Ha Hb.
  rewrite Forall_forall in Hws. apply particle_match_comm; auto.
Qed.

Lemma sub_from_ext s r r' t i rest skip :
  (∀ j, match_at s r j = match_at s r' j) →
  sub_from s r t i rest skip = sub_from s r' t i rest skip.
Proof.
  intros Hr. revert i skip.
  induction rest as [|c rest IH]; intros i skip.
  - destruct skip; simpl; [|done]. by rewrite Hr.
  - destruct skip; simpl; [|by apply IH].
    rewrite Hr. destruct (match_at s r' i) as [[j g]|].
    + f_equal. case_decide; [f_equal|]; apply IH.
    + f_equal. apply IH.
Qed.

Lemma re_sub_annexation_perm ws ws' s :
  ws ≡ₚ ws' → Forall word_string ws →
  re_sub (annexation_pattern ws) annexation_template s
  = re_sub (annexation_pattern ws') annexation_template s.
Proof.
  intros Hperm Hws. unfold re_sub. apply sub_from_ext. intros j.
  unfold match_at. by rewrite (matches_annexation_perm s ws ws').
Qed.

(** The particles are written with letters only. *)
Lemma particles_word_strings order :
  iteration_order order → Forall word_string order.
Proof.
  unfold iteration_order. intros ->.
  assert (forallb (λ w, negb (bool_decide (w = [])) && forallb kabyle_letter w)
            canonical_order = true) as Hall by (by vm_compute).
  rewrite forallb_forall in Hall. apply Forall_forall. intros w Hw.
  apply list_elem_of_In, Hall, andb_true_iff in Hw as [Hne Hlet]. split.
  - apply negb_true_iff, bool_decide_eq_false in Hne. done.
  - rewrite forallb_forall in Hlet. apply Forall_forall. intros c Hc.
    apply kabyle_letter_is_word, Hlet. by apply list_elem_of_In.
Qed.

(** The corrected text does not depend on the order in which the set of
    particles was enumerated. *)
Lemma correct_order_irrelevant o1 o2 text :
  iteration_order o1 → iteration_order o2 →
  correct o1 text = correct o2 text.
Proof.
  intros H1 H2. unfold correct. destruct text as [|c text]; [done|].
  cbv zeta. do 3 f_equal.
  apply re_sub_annexation_perm.
  - unfold sorted_all_annexable. rewrite !sorted_by_len_perm.
    unfold iteration_order in *. etrans; [exact H1 | symmetry; exact H2].
  - unfold sorted_all_annexable. rewrite sorted_by_len_perm.
    by apply particles_word_strings.
Qed.

(** *** Collapsing runs of one character class *)

Lemma head_counts_down lo n :
  head (counts_down lo n) = if decide (lo ≤ n) then Some n else None.
Proof.
  unfold counts_down. case_decide as Hn.
  - replace (S n - lo) with (S (n - lo)) by lia.
    rewrite seq_S, reverse_app. simpl. f_equal. lia.
  - by replace (S n - lo) with 0 by lia.
Qed.

Lemma match_at_many s p lo i :
  match_at s (Many p lo) i
  = if decide (lo ≤ run p (drop i s)) then Some (i + run p (drop i s), []) else None.
Proof.
  unfold match_at. cbn [matches].
  destruct (counts_down lo (run p (drop i s))) as [|n l] eqn:E;
    pose proof (head_counts_down lo (run p (drop i s))) as Hd;
    rewrite E in Hd; simpl in Hd; case_decide; by simplify_eq.
Qed.

Lemma run_le p l : run p l ≤ length l.
Proof. induction l as [|c l IH]; simpl; [done|]. case_match; lia. Qed.

Lemma sub_from_skip s r t i rest skip :
  skip ≤ length rest →
  sub_from s r t i rest skip = sub_from s r t (i + skip) (drop skip rest) 0.
Proof.
  revert i rest. induction skip as [|k IH]; intros i rest Hk.
  - by rewrite Nat.add_0_r.
  - destruct rest as [|c rest]; simpl in Hk; [lia|].
    cbn [sub_from drop]. rewrite IH by lia. f_equal. lia.
Qed.

Lemma squeeze_after_run p x l :
  squeeze p x true l = squeeze p x false (drop (run p l) l).
Proof.
  induction l as [|c l IH]; [done|]. simpl.
  destruct (p c) eqn:Hc; simpl; [done|]. by rewrite Hc.
Qed.

Lemma sub_from_many p x s n :
  ∀ i, length s - i ≤ n →
  sub_from s (Many p 1) [Text x] i (drop i s) 0 = squeeze p x false (drop i s).
Proof.
  induction n as [|n IH]; intros i Hn.
  - rewrite drop_ge by lia. simpl. rewrite match_at_many, drop_ge by lia.
    done.
  - destruct (drop i s) as [|c rest] eqn:E.
    { simpl. by rewrite match_at_many, E. }
    assert (drop (S i) s = rest) as Hrest.
    { replace (S i) with (i + 1) by lia. by rewrite <- drop_drop, E. }
    assert (i < length s) as Hi.
    { apply (f_equal length) in E. rewrite length_drop in E. simpl in E. lia. }
    cbn [sub_from squeeze]. rewrite match_at_many, E. cbn [run].
    destruct (p c) eqn:Hc.
    + rewrite decide_True by lia. rewrite decide_False by lia.
      replace (i + S (run p rest) - i - 1) with (run p rest) by lia.
      rewrite sub_from_skip by apply run_le.
      change (expand s [] [Text x]) with [x]. simpl. f_equal.
      rewrite squeeze_after_run. rewrite <- Hrest, drop_drop.
      apply IH. lia.
    + rewrite decide_False by lia. f_equal. rewrite <- Hrest. apply IH. lia.
Qed.

(** [re.sub(p+, x, s)] collapses every run of [p] characters to one [x]. *)
Lemma re_sub_many p x s : re_sub (Many p 1) [Text x] s = squeeze p x false s.
Proof. unfold re_sub. apply (sub_from_many p x s (length s) 0). lia. Qed.

Lemma tidy_squeeze p x b s : p x = true → tidy p x b (squeeze p x b s) = true.
Proof.
  intros Hx. revert b. induction s as [|c s IH]; intros b; [done|]. simpl.
  destruct (p c) eqn:Hc.
  - destruct b; [apply IH|]. simpl. rewrite Hx, bool_decide_eq_true_2 by done.
    simpl. apply IH.
  - simpl. rewrite Hc. apply IH.
Qed.

Lemma tidy_weaken q x b s : tidy q x b s = true → tidy q x false s = true.
Proof.
  destruct s as [|c s]; [done|]. simpl. destruct (q c); [|done].
  rewrite !andb_true_iff. by intros [[_ ?] ?].
Qed.

Lemma tidy_tail q x b c s : tidy q x b (c :: s) = true → tidy q x false s = true.
Proof.
  simpl. destruct (q c); [|done].
  rewrite !andb_true_iff. intros [_ Hs]. by eapply tidy_weaken.
Qed.

Lemma tidy_app_l q x b l1 l2 : tidy q x b (l1 ++ l2) = true → tidy q x b l1 = true.
Proof.
  revert b. induction l1 as [|c l1 IH]; intros b; [done|]. simpl.
  destruct (q c); [|apply IH].
  rewrite !andb_true_iff. intros [? ?%IH]. done.
Qed.

Lemma tidy_member q x b s c :
  tidy q x b s = true → c ∈ s → q c = true → c = x.
Proof.
  revert b. induction s as [|c' s IH]; intros b Ht Hc Hq; [by inv Hc|].
  apply elem_of_cons in Hc as [->|Hc].
  - simpl in Ht. rewrite Hq, !andb_true_iff in Ht.
    destruct Ht as [[_ Ht] _]. by apply bool_decide_eq_true in Ht.
  - eapply IH; [by eapply tidy_tail|done..].
Qed.

Lemma tidy_no_pair q x b s i c c' :
  tidy q x b s = true → s !! i = Some c → s !! S i = Some c' →
  q c = true → q c' = false.
Proof.
  revert b i. induction s as [|c0 s IH]; intros b i Ht Hi Hi'; [done|].
  destruct i as [|i].
  - simpl in Hi. simplify_eq. intros Hq. simpl in Ht. rewrite Hq in Ht.
    destruct s as [|c1 s]; [done|]. simpl in Hi'. simplify_eq.
    rewrite !andb_true_iff in Ht. destruct Ht as [_ Ht]. simpl in Ht.
    destruct (q c'); [|done]. done.
  - eapply (IH false); [by eapply tidy_tail|done..].
Qed.

Lemma lstrip_suffix s : ∃ l, s = l ++ lstrip s.
Proof.
  induction s as [|c s [l IH]]; [by exists []|]. simpl.
  destruct (is_space c); [|by exists []].
  exists (c :: l). simpl. by f_equal.
Qed.

Lemma rstrip_prefix s : ∃ l, s = rstrip s ++ l.
Proof.
  unfold rstrip. destruct (lstrip_suffix (reverse s)) as [l Hl].
  exists (reverse l). rewrite <- reverse_app, <- Hl. by rewrite reverse_involutive.
Qed.

Lemma head_lstrip s c : head (lstrip s) = Some c → is_space c = false.
Proof.
  induction s as [|c' s IH]; [done|]. simpl.
  destruct (is_space c') eqn:Hc'; [done|]. simpl. by intros [= <-].
Qed.

Lemma head_strip s c : head (strip s) = Some c → is_space c = false.
Proof.
  unfold strip. intros Hh.
  destruct (rstrip_prefix (lstrip s)) as [l Hl].
  destruct (rstrip (lstrip s)) as [|c' r]; [done|].
  simpl in Hh. simplify_eq. apply (head_lstrip s). by rewrite Hl.
Qed.

Lemma last_strip s c : last (strip s) = Some c → is_space c = false.
Proof.
  unfold strip, rstrip. rewrite last_reverse. apply head_lstrip.
Qed.

Lemma tidy_lstrip q x s : tidy q x false s = true → tidy q x false (lstrip s) = true.
Proof.
  induction s as [|c s IH]; [done|]. intros Ht. cbn [lstrip].
  destruct (is_space c); [|done]. apply IH. by eapply tidy_tail.
Qed.

Lemma tidy_strip q x s : tidy q x false s = true → tidy q x false (strip s) = true.
Proof.
  intros Ht%tidy_lstrip. unfold strip.
  destruct (rstrip_prefix (lstrip s)) as [l Hl]. rewrite Hl in Ht.
  by eapply tidy_app_l.
Qed.

Lemma tidy_squeeze_other q y p x s :
  q x = false → (∀ c, p c = true → c = x) →
  ∀ b, tidy q y b s = true →
    tidy q y false (squeeze p x true s) = true
    ∧ tidy q y b (squeeze p x false s) = true.
Proof.
  intros Hx Hp. induction s as [|c s IH]; intros b Ht; [by destruct b|].
  simpl. destruct (p c) eqn:Hc.
  - apply Hp in Hc as ->. simpl in Ht. rewrite Hx in Ht.
    simpl. rewrite Hx. destruct (IH false Ht) as [IH1 _]. done.
  - simpl. simpl in Ht. destruct (q c).
    + rewrite !andb_true_iff in Ht. destruct Ht as [[Hb Hcy] Ht].
      destruct (IH true Ht) as [_ IH2]. rewrite Hcy, IH2, Hb. done.
    + destruct (IH false Ht) as [_ IH2]. done.
Qed.

Lemma squeeze_nil p x s : squeeze p x false s = [] → s = [].
Proof. destruct s as [|c s]; [done|]. simpl. by destruct (p c). Qed.

Lemma head_squeeze p x s c :
  head (squeeze p x false s) = Some c → c = x ∨ head s = Some c.
Proof.
  destruct s as [|c' s]; [done|]. simpl.
  destruct (p c'); simpl; intros [= <-]; auto.
Qed.

Lemma last_squeeze p x b s c :
  last (squeeze p x b s) = Some c → c = x ∨ last s = Some c.
Proof.
  revert b. induction s as [|c' s IH]; intros b; [done|]. simpl.
  destruct (p c').
  - destruct b.
    + intros [->|Hl]%IH; [by left|]. right. rewrite last_cons, Hl. done.
    + rewrite last_cons. destruct (last (squeeze p x true s)) as [y|] eqn:Hy.
      * intros [= ->]. apply IH in Hy as [->|Hl]; [by left|].
        right. by rewrite last_cons, Hl.
      * intros [= ->]. by left.
  - rewrite last_cons. destruct (last (squeeze p x false s)) as [y|] eqn:Hy.
    + intros [= ->]. apply IH in Hy as [->|Hl]; [by left|].
      right. by rewrite last_cons, Hl.
    + intros [= ->]. right. apply last_None in Hy.
      apply squeeze_nil in Hy as ->. done.
Qed.

(** *** Where the characters of a substitution come from *)

Lemma elem_of_expand s g t c : c ∈ expand s g t → c ∈ s ∨ Text c ∈ t.
Proof.
  unfold expand. rewrite list_elem_of_bind. intros ([c'|n] & Hc & Hp).
  - apply list_elem_of_singleton in Hc as ->. by right.
  - left. destruct (group_span n g) as [[a b]|]; [|by apply elem_of_nil in Hc].
    by apply subseteq_take, subseteq_drop in Hc.
Qed.

Lemma elem_of_sub_from s r t c rest :
  ∀ i skip, rest ⊆ s → c ∈ sub_from s r t i rest skip → c ∈ s ∨ Text c ∈ t.
Proof.
  induction rest as [|c0 rest IH]; intros i skip Hsub.
  - destruct skip; simpl; [|by intros ?%elem_of_nil].
    destruct (match_at s r i) as [[j g]|]; [|by intros ?%elem_of_nil].
    rewrite app_nil_r. apply elem_of_expand.
  - assert (c0 ∈ s) as Hc0 by (apply Hsub; left).
    assert (rest ⊆ s) as Hrest by (intros x Hx; apply Hsub; by right).
    destruct skip; simpl; [|by apply IH].
    destruct (match_at s r i) as [[j g]|].
    + rewrite elem_of_app. intros [Hc|Hc]; [by eapply elem_of_expand|].
      case_decide; [|by eapply IH].
      apply elem_of_cons in Hc as [->|Hc]; [by left | by eapply IH].
    + intros [->|Hc]%elem_of_cons; [by left | by eapply IH].
Qed.

Lemma elem_of_re_sub r t s c : c ∈ re_sub r t s → c ∈ s ∨ Text c ∈ t.
Proof. unfold re_sub. by apply elem_of_sub_from. Qed.

Lemma strip_subseteq s : strip s ⊆ s.
Proof.
  unfold strip. destruct (rstrip_prefix (lstrip s)) as [l Hl].
  destruct (lstrip_suffix s) as [l' Hl'].
  intros c Hc. rewrite Hl', Hl, !elem_of_app. auto.
Qed.

Lemma text_in_template c : Text c ∈ annexation_template → c = HYPHEN.
Proof.
  unfold annexation_template. rewrite !elem_of_cons, elem_of_nil.
  intros [?|[?|[?|[]]]]; by simplify_eq.
Qed.

Lemma text_in_singleton c x : Text c ∈ [Text x] → c = x.
Proof. by intros [= ->]%list_elem_of_singleton. Qed.

Lemma elem_of_correct order text c :
  c ∈ correct order text → c = SPACE ∨ c = HYPHEN ∨ c ∈ lower text.
Proof.
  unfold correct. destruct text as [|c0 text]; [by intros ?%elem_of_nil|].
  cbv zeta. intros [Hc|Hc]%elem_of_re_sub.
  - apply strip_subseteq, elem_of_re_sub in Hc as [Hc|Hc].
    + apply elem_of_re_sub in Hc as [Hc|Hc]; [auto|].
      apply text_in_template in Hc. auto.
    + apply text_in_singleton in Hc. auto.
  - apply text_in_singleton in Hc. auto.
Qed.

(** *** The shape of the corrected text *)

Lemma is_hyphen_eq c : is_hyphen c = true → c = HYPHEN.
Proof. unfold is_hyphen. by intros ?%bool_decide_eq_true. Qed.

Lemma correct_tidy order text :
  let out := correct order text in
  tidy is_space SPACE false out = true
  ∧ tidy is_hyphen HYPHEN false out = true
  ∧ (∀ c, head out = Some c → is_space c = false)
  ∧ (∀ c, last out = Some c → is_space c = false).
Proof.
  unfold correct. destruct text as [|c0 text]; [done|]. cbv zeta.
  set (t1 := re_sub (annexation_pattern _) _ _).
  change (λ c, bool_decide (c = HYPHEN)) with is_hyphen.
  rewrite !re_sub_many.
  assert (tidy is_space SPACE false (strip (squeeze is_space SPACE false t1)) = true)
    as Hws by (apply tidy_strip, tidy_squeeze, space_is_space).
  repeat split.
  - by apply (tidy_squeeze_other is_space SPACE is_hyphen HYPHEN);
      [apply hyphen_not_space | apply is_hyphen_eq |].
  - by apply tidy_squeeze.
  - intros c [->|Hc]%head_squeeze; [apply hyphen_not_space|].
    by eapply head_strip.
  - intros c [->|Hc]%last_squeeze; [apply hyphen_not_space|].
    by eapply last_strip.
Qed.

(** ** The corrector: claims that hold for every text *)

(** C8. For every string, the output of [correct] has no white-space
    character other than the space, no two consecutive spaces, no leading or
    trailing white space, and no two consecutive hyphens. *)
Theorem correct_output_clean order text :
  let out := correct order text in
  (∀ c, c ∈ out → is_space c = true → c = SPACE)
  ∧ (∀ i, out !! i = Some SPACE → out !! S i ≠ Some SPACE)
  ∧ (∀ c, head out = Some c → is_space c = false)
  ∧ (∀ c, last out = Some c → is_space c = false)
  ∧ (∀ i, out !! i = Some HYPHEN → out !! S i ≠ Some HYPHEN).
Proof.
  destruct (correct_tidy order text) as (Hws & Hhy & Hhead & Hlast).
  cbv zeta in *. repeat split; [| | done | done |].
  - intros c Hc Hsp. by eapply tidy_member.
  - intros i Hi Hi'.
    pose proof (tidy_no_pair _ _ _ _ _ _ _ Hws Hi Hi' space_is_space) as Hno.
    by rewrite space_is_space in Hno.
  - intros i Hi Hi'.
    by pose proof (tidy_no_pair _ _ _ _ _ _ _ Hhy Hi Hi' eq_refl).
Qed.

(** C9, as amended.  Every character of the output is a space, a hyphen or a
    character of the lower-cased input; so an upper-case character occurs in
    the output only where [str.lower] left it in the text. *)
Theorem correct_case order text c :
  c ∈ correct order text →
  (c = SPACE ∨ c = HYPHEN ∨ c ∈ lower text)
  ∧ (is_upper c = true → c ∈ lower text).
Proof.
  intros Hc%elem_of_correct. split; [done|]. intros Hup.
  destruct Hc as [->|[->|Hc]]; [|  |done].
  - by rewrite space_not_upper in Hup.
  - by rewrite hyphen_not_upper in Hup.
Qed.

(** C10. The corrected text is a function of the input alone: whatever the
    order in which the particles were enumerated, and so whatever the order
    of equally long alternatives in the pattern, the result is the same. *)
Theorem post_process_order_irrelevant o1 o2 text :
  iteration_order o1 → iteration_order o2 →
  post_process_kabyle_text o1 text = post_process_kabyle_text o2 text.
Proof.
  intros H1 H2. destruct text as [s| |o]; [|done|done]. simpl.
  by rewrite (correct_order_irrelevant o1 o2).
Qed.

(** C5, as amended.  The list the pattern is built from holds exactly the
    members of the nine particle classes, each once; longer members come
    before shorter ones; members of equal length stand in the order in which
    the set was enumerated; and the alternatives are tried in the order of
    the list. *)
Theorem sorted_all_annexable_spec order :
  iteration_order order →
  let ws := sorted_all_annexable order in
  length particle_classes = 9
  ∧ (∀ w, w ∈ ws ↔ ∃ class, class ∈ particle_classes ∧ w ∈ class)
  ∧ NoDup ws
  ∧ StronglySorted by_len ws
  ∧ (∀ n, filter (λ v, length v = n) ws = filter (λ v, length v = n) order)
  ∧ (∀ s i g, matches s (alternation ws) i g = ws ≫= λ w, matches s (Lit w) i g).
Proof.
  intros Ho ws.
  assert (ws ≡ₚ elements all_annexable_particles) as Hperm.
  { unfold ws, sorted_all_annexable. by rewrite sorted_by_len_perm. }
  split; [done|]. split; [|split; [|split; [|split]]].
  - intros w. rewrite Hperm, elem_of_elements, all_annexable_particles_union.
    apply elem_of_union_list.
  - rewrite Hperm. apply NoDup_elements.
  - apply sorted_by_len_sorted.
  - intros n. apply sorted_by_len_stable.
  - intros s i g. apply matches_alternation. intros Hnil.
    apply Permutation_length in Hperm. rewrite Hnil in Hperm.
    by vm_compute in Hperm.
Qed.

End Facts.

(** ** The corrector on concrete texts

    The texts below are evaluated with the character table [latin]. *)

Lemma iteration_order_canonical : iteration_order canonical_order.
Proof. unfold iteration_order, canonical_order. reflexivity. Qed.

Lemma iteration_order_reverse : iteration_order (reverse canonical_order).
Proof. apply reverse_Permutation. Qed.

(** C5, as stated, fails: the lexicon has nine classes and each of them
    contributes a particle of its own; the list starts with two members of
    the same length; and two enumerations of the same set give two different
    lists. *)
Lemma sorted_all_annexable_claim_fails :
  length particle_classes ≠ 8
  ∧ (∀ k, k < 9 → ⋃ (delete k particle_classes) ≠ all_annexable_particles)
  ∧ (∃ a b, take 2 (sorted_all_annexable canonical_order) = [a; b]
            ∧ length a = length b)
  ∧ iteration_order canonical_order
  ∧ iteration_order (reverse canonical_order)
  ∧ sorted_all_annexable canonical_order
    ≠ sorted_all_annexable (reverse canonical_order).
Proof.
  split; [done|]. split; [|split; [|split; [|split]]].
  - assert (∀ k w, bool_decide (w ∈ all_annexable_particles) = true →
            bool_decide (w ∈ ⋃ (delete k particle_classes)) = false →
            ⋃ (delete k particle_classes) ≠ all_annexable_particles) as Hown.
    { intros k w Hin%bool_decide_eq_true Hout%bool_decide_eq_false Heq.
      apply Hout. rewrite Heq. exact Hin. }
    intros k Hk.
    destruct k as [|[|[|[|[|[|[|[|[|k]]]]]]]]]; [..|lia].
    + by apply (Hown _ (py "inu")); vm_compute.
    + by apply (Hown _ (py "deg")); vm_compute.
    + by apply (Hown _ (py "ak")); vm_compute.
    + by apply (Hown _ (py "i")); vm_compute.
    + by apply (Hown _ (py "agi")); vm_compute.
    + by apply (Hown _ (py "id")); vm_compute.
    + by apply (Hown _ (py "ad")); vm_compute.
    + by apply (Hown _ (py "kem")); vm_compute.
    + by apply (Hown _ (py "yak")); vm_compute.
  - exists (py "tentex"), (py "yawent"). split; [by vm_compute|done].
  - apply iteration_order_canonical.
  - apply iteration_order_reverse.
  - intros Heq. apply (f_equal (λ l, l !! 0)) in Heq. by vm_compute in Heq.
Qed.

(** C5, as amended, on two enumerations. *)
Lemma sorted_all_annexable_spec_witness :
  iteration_order (reverse canonical_order)
  ∧ StronglySorted by_len (sorted_all_annexable (reverse canonical_order)).
Proof.
  split; [apply iteration_order_reverse|].
  apply (sorted_all_annexable_spec (reverse canonical_order)).
  apply iteration_order_reverse.
Defined.

(** C10 on the two enumerations above. *)
Lemma post_process_order_irrelevant_witness :
  iteration_order canonical_order
  ∧ iteration_order (reverse canonical_order)
  ∧ post_process_kabyle_text canonical_order (PyStr (py "axxam ines"))
    = post_process_kabyle_text (reverse canonical_order) (PyStr (py "axxam ines")).
Proof.
  split; [apply iteration_order_canonical|].
  split; [apply iteration_order_reverse|].
  apply post_process_order_irrelevant;
    [apply iteration_order_canonical | apply iteration_order_reverse].
Defined.

(** C6. ["ines"] is a possessive pronoun of the lexicon, and the text
    ["axxam ines"] is corrected to ["axxam-ines"]. *)
Theorem correct_axxam_ines order :
  iteration_order order →
  py "ines" ∈ PoPro ∧ correct order (py "axxam ines") = py "axxam-ines".
Proof.
  intros Ho. split.
  - apply elem_of_list_to_set, list_elem_of_lookup. by exists 2.
  - rewrite (correct_order_irrelevant order canonical_order)
      by (done || apply iteration_order_canonical).
    by vm_compute.
Qed.

Lemma correct_axxam_ines_witness :
  iteration_order canonical_order
  ∧ py "ines" ∈ PoPro
  ∧ correct canonical_order (py "axxam ines") = py "axxam-ines".
Proof.
  split; [apply iteration_order_canonical|].
  apply correct_axxam_ines. apply iteration_order_canonical.
Defined.

(** C1 fails on a stem followed by two particles: the first pass joins the
    first particle only, because the scan resumes after it; the second pass
    joins the other one. *)
Theorem correct_twice_differs order :
  iteration_order order →
  let s := py "axxam ad id" in
  correct order s = py "axxam-ad id"
  ∧ correct order (correct order s) = py "axxam-ad-id"
  ∧ correct order (correct order s) ≠ correct order s.
Proof.
  intros Ho s.
  assert (correct order s = py "axxam-ad id") as E1.
  { rewrite (correct_order_irrelevant order canonical_order)
      by (done || apply iteration_order_canonical).
    by vm_compute. }
  assert (correct order (py "axxam-ad id") = py "axxam-ad-id") as E2.
  { rewrite (correct_order_irrelevant order canonical_order)
      by (done || apply iteration_order_canonical).
    by vm_compute. }
  rewrite E1, E2. split; [done|]. split; [done|]. by vm_compute.
Qed.

Lemma correct_twice_differs_witness :
  iteration_order canonical_order
  ∧ correct canonical_order (correct canonical_order (py "axxam ad id"))
    ≠ correct canonical_order (py "axxam ad id").
Proof.
  split; [apply iteration_order_canonical|].
  apply (correct_twice_differs canonical_order).
  apply iteration_order_canonical.
Defined.

(** C9, as stated, fails on U+2102: it is an upper-case character and
    [str.lower] has no lower-case form to map it to. *)
Lemma correct_keeps_upper_case :
  let s := [8450%N] in
  lower s = s ∧ correct canonical_order s = s ∧ is_upper 8450%N = true.
Proof. by vm_compute. Qed.

Lemma correct_case_witness :
  8450%N ∈ correct canonical_order [8450%N]
  ∧ (8450%N = SPACE ∨ 8450%N = HYPHEN ∨ 8450%N ∈ lower [8450%N])
  ∧ (is_upper 8450%N = true → 8450%N ∈ lower [8450%N]).
Proof.
  assert (8450%N ∈ correct canonical_order [8450%N]) as Hc
    by (vm_compute; left).
  split; [exact Hc|]. exact (correct_case canonical_order _ _ Hc).
Defined.

(** ** The request pipeline *)

Section PipelineFacts.
Context `{Unicode}.

(** The [try] block with its handlers never lets an exception through, and
    answers with status 200 or 500. *)
Lemma guarded_handle_status m order x σ :
  ∃ resp σ',
    try_except (handle m order x)
      (λ _, lift (jsonify (Error "An internal server error occurred.") 500)) σ
    = (Done resp, σ')
    ∧ (status resp = 200 ∨ status resp = 500).
Proof.
  unfold handle, try_except, mbind, M_bind, bind, call, named_temporary_file,
    set_temp_input_file, set_processed_file_path, ret, raise, lift.
  destruct x as [t1 sv dc t2 ex rm]; cbn [tmp_input_ok save_ok decode_ok
    tmp_processed_ok export_ok remove_ok].
  destruct t1, sv, dc, t2, ex; cbn; eauto;
    destruct (asr_transcribe m) as [[|first l]|]; cbn; eauto;
    destruct (truthy first), (text first) as [[?| |[]]|]; cbn; eauto.
Qed.

(** Whatever happens in the [try] block, the client sees 200 or 500. *)
Lemma guarded_run_status m order x σ :
  let r := try_finally
    (try_except (handle m order x)
       (λ _, lift (jsonify (Error "An internal server error occurred.") 500)))
    (cleanup x) σ in
  status_seen r.1 = 200 ∨ status_seen r.1 = 500.
Proof.
  cbv zeta. unfold try_finally.
  destruct (guarded_handle_status m order x σ) as (resp & σ' & -> & Hst).
  destruct (cleanup x σ') as [[[]|e] σ'']; simpl; auto.
Qed.

(** C7. When the model was not loaded, every request is answered with
    status 503 and the disk is left as it was: nothing is created. *)
Theorem transcribe_model_unavailable order req x d :
  transcribe None order req x d
  = (Done {| json := Error "ASR model is not loaded."; status := 503 |}, d).
Proof. reflexivity. Qed.

(** C3, as amended.  With the model loaded, the request is answered with
    status 400 exactly when the form has no [audio] field or the file name is
    empty, and then the disk is left untouched; the payload is not looked
    at. *)
Theorem transcribe_invalid_input m order req x d :
  let r := transcribe (Some m) order req x d in
  (status_seen r.1 = 400
   ↔ audio req = None ∨ ∃ f, audio req = Some f ∧ filename f = "")
  ∧ (status_seen r.1 = 400 → r.2 = d).
Proof.
  cbv zeta. unfold transcribe. destruct (audio req) as [f|] eqn:Hf.
  - case_decide as Hname.
    + split; [|done]. split; [|done]. intros _. right. by exists f.
    + pose proof (guarded_run_status m order x
        {| disk := d; temp_input_file := None; processed_file_path := None |})
        as Hst.
      cbv zeta in Hst. destruct (try_finally _ _ _) as [r σ]. simpl in *.
      split; [split|]; [lia| |lia].
      intros [?|(f' & ? & ?)]; [done|]. by simplify_eq.
  - split; [|done]. split; [|done]. intros _. by left.
Qed.

(** *** The [finally] block *)

Lemma cleanup_none x D :
  cleanup x {| disk := D; temp_input_file := None; processed_file_path := None |}
  = (Done (), {| disk := D; temp_input_file := None;
                 processed_file_path := None |}).
Proof. reflexivity. Qed.

Lemma cleanup_input x D p :
  p ∈ D →
  cleanup x {| disk := D; temp_input_file := Some p;
               processed_file_path := None |}
  = if remove_ok x p
    then (Done (), {| disk := D ∖ {[p]}; temp_input_file := Some p;
                      processed_file_path := None |})
    else (Raised OSError, {| disk := D; temp_input_file := Some p;
                             processed_file_path := None |}).
Proof.
  intros Hp.
  unfold cleanup, remove_if_exists, mbind, M_bind, bind, os_path_exists,
    os_remove, ret. cbn.
  rewrite (bool_decide_eq_true_2 _ Hp). cbn.
  rewrite (bool_decide_eq_true_2 _ Hp). by destruct (remove_ok x p).
Qed.

Lemma cleanup_both x D p q :
  p ∈ D → q ∈ D → p ≠ q →
  cleanup x {| disk := D; temp_input_file := Some p;
               processed_file_path := Some q |}
  = if remove_ok x p
    then if remove_ok x q
         then (Done (), {| disk := D ∖ {[p]} ∖ {[q]}; temp_input_file := Some p;
                           processed_file_path := Some q |})
         else (Raised OSError, {| disk := D ∖ {[p]}; temp_input_file := Some p;
                                  processed_file_path := Some q |})
    else (Raised OSError, {| disk := D; temp_input_file := Some p;
                             processed_file_path := Some q |}).
Proof.
  intros Hp Hq Hpq.
  assert (q ∈ D ∖ {[p]}) as Hq'.
  { apply elem_of_difference. split; [done|]. apply not_elem_of_singleton.
    congruence. }
  unfold cleanup, remove_if_exists, mbind, M_bind, bind, os_path_exists,
    os_remove, ret. cbn.
  rewrite (bool_decide_eq_true_2 _ Hp). cbn.
  rewrite (bool_decide_eq_true_2 _ Hp).
  destruct (remove_ok x p); cbn; [|done].
  rewrite (bool_decide_eq_true_2 _ Hq'). cbn.
  rewrite (bool_decide_eq_true_2 _ Hq'). by destruct (remove_ok x q).
Qed.

(** *** Fresh names *)

Lemma fresh_second (d : gset path) :
  fresh ({[fresh d]} ∪ d) ≠ fresh d ∧ fresh ({[fresh d]} ∪ d) ∉ d.
Proof.
  pose proof (is_fresh ({[fresh d]} ∪ d)) as Hp.
  apply not_elem_of_union in Hp as [Hp%not_elem_of_singleton ?]. done.
Qed.

Lemma remove_fresh p (D : gset path) : p ∉ D → ({[p]} ∪ D) ∖ {[p]} = D.
Proof.
  intros Hp. apply set_eq. intros q.
  rewrite elem_of_difference, elem_of_union, !elem_of_singleton.
  split; [tauto|]. intros Hq. split; [tauto|]. by intros ->.
Qed.

Lemma remove_first_of_two p q (D : gset path) :
  p ∉ D → q ≠ p → ({[q]} ∪ ({[p]} ∪ D)) ∖ {[p]} = {[q]} ∪ D.
Proof.
  intros Hp Hq. apply set_eq. intros r.
  rewrite elem_of_difference, !elem_of_union, !elem_of_singleton.
  split; [tauto|]. intros [->|Hr]; [tauto|]. split; [tauto|]. by intros ->.
Qed.

(** *** The [try] block *)

(** The state in which the [try] block, with its handlers, leaves the disk
    and the two variables.  In the second and the fourth case a file exists
    whose name is in neither variable. *)
Lemma guarded_handle_outcomes m order x d :
  let p1 := fresh d in
  let p2 := fresh ({[p1]} ∪ d) in
  ∃ resp σ',
    try_except (handle m order x)
      (λ _, lift (jsonify (Error "An internal server error occurred.") 500))
      {| disk := d; temp_input_file := None; processed_file_path := None |}
    = (Done resp, σ')
    ∧ ((tmp_input_ok x = false
        ∧ σ' = {| disk := d; temp_input_file := None;
                  processed_file_path := None |})
       ∨ (save_ok x = false
          ∧ σ' = {| disk := {[p1]} ∪ d; temp_input_file := None;
                    processed_file_path := None |})
       ∨ σ' = {| disk := {[p1]} ∪ d; temp_input_file := Some p1;
                 processed_file_path := None |}
       ∨ (export_ok x = false
          ∧ σ' = {| disk := {[p2]} ∪ ({[p1]} ∪ d); temp_input_file := Some p1;
                    processed_file_path := None |})
       ∨ σ' = {| disk := {[p2]} ∪ ({[p1]} ∪ d); temp_input_file := Some p1;
                 processed_file_path := Some p2 |}).
Proof.
  intros p1 p2.
  unfold handle, try_except, mbind, M_bind, bind, call, named_temporary_file,
    set_temp_input_file, set_processed_file_path, ret, raise, lift.
  destruct x as [t1 sv dc t2 ex rm]; cbn [tmp_input_ok save_ok decode_ok
    tmp_processed_ok export_ok remove_ok].
  destruct t1, sv, dc, t2, ex; cbn; eauto 10;
    destruct (asr_transcribe m) as [[|first l]|]; cbn; eauto 10;
    destruct (truthy first), (text first) as [[?| |[]]|]; cbn; eauto 10.
Qed.

(** The clean-up is right on every run in which saving the upload and
    exporting the normalized audio do not fail, and the files can be
    removed: the disk is then left as it was found. *)
Lemma transcribe_cleans_up asr_model order req x d :
  save_ok x = true → export_ok x = true → (∀ p, remove_ok x p = true) →
  (transcribe asr_model order req x d).2 = d.
Proof.
  intros Hsave Hexport Hrm. unfold transcribe.
  destruct asr_model as [m|]; [|done].
  destruct (audio req) as [f|]; [|done]. case_decide; [done|].
  unfold try_finally.
  destruct (guarded_handle_outcomes m order x d) as (resp & σ' & -> & Hσ').
  pose proof (is_fresh d) as Hp1.
  destruct (fresh_second d) as [Hp21 Hp2].
  destruct Hσ' as [[_ ->]|[[? _]|[->|[[? _]| ->]]]]; [|congruence| |congruence|].
  - by rewrite cleanup_none.
  - rewrite cleanup_input, Hrm by (apply elem_of_union_l, elem_of_singleton; done).
    cbn. by apply remove_fresh.
  - rewrite cleanup_both.
    + rewrite !Hrm. cbn. rewrite remove_first_of_two by done.
      by apply remove_fresh.
    + apply elem_of_union_r, elem_of_union_l, elem_of_singleton. done.
    + apply elem_of_union_l, elem_of_singleton. done.
    + congruence.
Qed.

(** When both temporary files exist and are recorded, and [os.remove] does
    not fail, the [finally] block restores the disk. *)
Lemma cleanup_two_fresh x (d : gset path) :
  (∀ p, remove_ok x p = true) →
  (cleanup x {| disk := {[fresh ({[fresh d]} ∪ d)]} ∪ ({[fresh d]} ∪ d);
                temp_input_file := Some (fresh d);
                processed_file_path := Some (fresh ({[fresh d]} ∪ d)) |}).1
  = Done ()
  ∧ disk (cleanup x {| disk := {[fresh ({[fresh d]} ∪ d)]} ∪ ({[fresh d]} ∪ d);
                       temp_input_file := Some (fresh d);
                       processed_file_path :=
                         Some (fresh ({[fresh d]} ∪ d)) |}).2
    = d.
Proof.
  intros Hrm. pose proof (is_fresh d) as Hp1.
  destruct (fresh_second d) as [Hp21 Hp2].
  rewrite cleanup_both.
  - rewrite !Hrm. cbn. rewrite remove_first_of_two by done.
    by rewrite remove_fresh.
  - apply elem_of_union_r, elem_of_union_l, elem_of_singleton. done.
  - apply elem_of_union_l, elem_of_singleton. done.
  - congruence.
Qed.

(** When every stage up to the transcription succeeds, both temporary files
    exist and are recorded when the transcript is examined. *)
Lemma handle_empty_result m order x l σ :
  stages_ok x → asr_transcribe m = Some l → result_check_fails l →
  handle m order x σ
  = (Done {| json := Error "Transcription failed. No text returned.";
             status := 500 |},
     {| disk := {[fresh ({[fresh (disk σ)]} ∪ disk σ)]}
                ∪ ({[fresh (disk σ)]} ∪ disk σ);
        temp_input_file := Some (fresh (disk σ));
        processed_file_path := Some (fresh ({[fresh (disk σ)]} ∪ disk σ)) |}).
Proof.
  intros (H1 & H2 & H3 & H4 & H5) Hm Hl.
  unfold handle, try_except, mbind, M_bind, bind, call, named_temporary_file,
    set_temp_input_file, set_processed_file_path, ret, raise, lift.
  rewrite H1, H2, H3, H4, H5, Hm. cbn.
  destruct l as [|first l]; [done|]. simpl in Hl.
  destruct Hl as [-> | ->]; [done|]. by destruct (truthy first).
Qed.

(** When the test of line 115 passes, the [text] attribute of the first
    entry goes through the corrector and [jsonify], whatever it holds; a
    [TypeError] of [jsonify] is answered by the outer [except]. *)
Lemma handle_text_result m order x first rest raw σ :
  stages_ok x → asr_transcribe m = Some (first :: rest) →
  truthy first = true → text first = Some raw →
  try_except (handle m order x)
    (λ _, lift (jsonify (Error "An internal server error occurred.") 500)) σ
  = (Done (if serialisable raw
           then {| json := Transcription (post_process_kabyle_text order raw);
                   status := 200 |}
           else {| json := Error "An internal server error occurred.";
                   status := 500 |}),
     {| disk := {[fresh ({[fresh (disk σ)]} ∪ disk σ)]}
                ∪ ({[fresh (disk σ)]} ∪ disk σ);
        temp_input_file := Some (fresh (disk σ));
        processed_file_path := Some (fresh ({[fresh (disk σ)]} ∪ disk σ)) |}).
Proof.
  intros (H1 & H2 & H3 & H4 & H5) Hm Ht Hx.
  unfold handle, try_except, mbind, M_bind, bind, call, named_temporary_file,
    set_temp_input_file, set_processed_file_path, ret, raise, lift.
  rewrite H1, H2, H3, H4, H5, Hm. cbn. rewrite Ht, Hx.
  by destruct raw as [s| |[]].
Qed.

(** C4, as amended.  With every stage up to the transcription successful:
    when the model returns an empty list, or a first entry that is false or
    has no [text] attribute, the request is answered with status 500, by the
    error "Transcription failed. No text returned." and never by a
    transcription.  When moreover the removal of the files does not fail,
    that error is the answer in these cases only: what the [text] attribute
    holds is not looked at, and a value that is not a string is passed
    through the corrector and answered with status 200, or, if [jsonify]
    cannot serialise it, with the internal-error message. *)
Theorem transcribe_empty_result m order req f x d l :
  audio req = Some f → filename f ≠ "" →
  stages_ok x → asr_transcribe m = Some l →
  let r := transcribe (Some m) order req x d in
  let failed :=
    {| json := Error "Transcription failed. No text returned.";
       status := 500 |} in
  (result_check_fails l →
   status_seen r.1 = 500 ∧ (∀ resp, r.1 = Done resp → resp = failed))
  ∧ ((∀ p, remove_ok x p = true) →
     (r = (Done failed, d) ↔ result_check_fails l)
     ∧ (∀ first rest raw,
          l = first :: rest → truthy first = true → text first = Some raw →
          r = (Done (if serialisable raw
                     then {| json := Transcription
                               (post_process_kabyle_text order raw);
                             status := 200 |}
                     else {| json := Error "An internal server error occurred.";
                             status := 500 |}), d))).
Proof.
  intros Hf Hname Hx Hm. cbv zeta.
  unfold transcribe.
  rewrite Hf, decide_False by done.
  unfold try_finally.
  assert (result_check_fails l →
    try_except (handle m order x)
      (λ _, lift (jsonify (Error "An internal server error occurred.") 500))
      {| disk := d; temp_input_file := None; processed_file_path := None |}
    = (Done {| json := Error "Transcription failed. No text returned.";
               status := 500 |},
       {| disk := {[fresh ({[fresh d]} ∪ d)]} ∪ ({[fresh d]} ∪ d);
          temp_input_file := Some (fresh d);
          processed_file_path := Some (fresh ({[fresh d]} ∪ d)) |}))
    as Hfail.
  { intros Hl. unfold try_except.
    by rewrite (handle_empty_result m order x l). }
  assert (∀ first rest raw,
    l = first :: rest → truthy first = true → text first = Some raw →
    try_except (handle m order x)
      (λ _, lift (jsonify (Error "An internal server error occurred.") 500))
      {| disk := d; temp_input_file := None; processed_file_path := None |}
    = (Done (if serialisable raw
             then {| json := Transcription (post_process_kabyle_text order raw);
                     status := 200 |}
             else {| json := Error "An internal server error occurred.";
                     status := 500 |}),
       {| disk := {[fresh ({[fresh d]} ∪ d)]} ∪ ({[fresh d]} ∪ d);
          temp_input_file := Some (fresh d);
          processed_file_path := Some (fresh ({[fresh d]} ∪ d)) |}))
    as Htext.
  { intros first rest raw -> Ht Hraw.
    by rewrite (handle_text_result m order x first rest raw). }
  split.
  - intros Hl. rewrite (Hfail Hl). split.
    + by destruct (cleanup x _) as [[[]|e] σ].
    + intros resp. destruct (cleanup x _) as [[[]|e] σ]; simpl; congruence.
  - intros Hrm. destruct (cleanup_two_fresh x d Hrm) as [Hc Hd].
    split; [split|].
    + intros E. destruct l as [|first rest]; [exact I|]. simpl.
      destruct (truthy first) eqn:Ht; [|by left].
      destruct (text first) as [raw|] eqn:Hraw; [|by right]. exfalso.
      rewrite (Htext first rest raw eq_refl Ht Hraw) in E.
      destruct (cleanup x _) as [[[]|e] σ]; [|discriminate].
      by destruct (serialisable raw).
    + intros Hl. rewrite (Hfail Hl).
      destruct (cleanup x _) as [[[]|e] σ]; [|discriminate].
      simpl in Hd. by rewrite Hd.
    + intros first rest raw Hl Ht Hraw.
      rewrite (Htext first rest raw Hl Ht Hraw).
      destruct (cleanup x _) as [[[]|e] σ]; [|discriminate].
      simpl in Hd. by rewrite Hd.
Qed.

(** C2 fails where a temporary file exists before its name is recorded.
    When saving the upload raises, the input file stays on disk; when
    exporting the normalized audio raises, the second file stays; and when
    [os.remove] raises, its exception replaces the response and both files
    stay. *)
Theorem transcribe_leaves_temp_files m order d :
  let p1 := fresh d in
  let p2 := fresh ({[p1]} ∪ d) in
  (p1 ∉ d) ∧ (p2 ∉ d)
  ∧ transcribe (Some m) order clip save_fails d
    = (Done {| json := Error "An internal server error occurred.";
               status := 500 |},
       {[p1]} ∪ d)
  ∧ transcribe (Some m) order clip export_fails d
    = (Done {| json := Error
       "Failed to process audio file. Please ensure it's a valid audio format.";
               status := 500 |},
       {[p2]} ∪ d)
  ∧ transcribe (Some hears_axxam_ines) order clip remove_fails d
    = (Raised OSError, {[p2]} ∪ ({[p1]} ∪ d)).
Proof.
  intros p1 p2.
  pose proof (is_fresh d) as Hp1. fold p1 in Hp1.
  destruct (fresh_second d) as [Hp21 Hp2]. fold p1 in Hp21, Hp2. fold p2 in Hp21, Hp2.
  assert (p1 ∈ {[p2]} ∪ ({[p1]} ∪ d)) as M1.
  { apply elem_of_union_r, elem_of_union_l, elem_of_singleton. done. }
  assert (p2 ∈ {[p2]} ∪ ({[p1]} ∪ d)) as M2.
  { apply elem_of_union_l, elem_of_singleton. done. }
  split; [done|]. split; [done|]. split; [done|]. split.
  - unfold transcribe. cbn [audio clip filename]. rewrite decide_False by done.
    unfold try_finally.
    change (try_except (handle m order export_fails) _ _)
      with (Done {| json := Error
       "Failed to process audio file. Please ensure it's a valid audio format.";
                    status := 500 |},
            {| disk := {[p2]} ∪ ({[p1]} ∪ d); temp_input_file := Some p1;
               processed_file_path := None |}).
    cbv beta iota. rewrite cleanup_input by done. cbn.
    by rewrite remove_first_of_two.
  - unfold transcribe. cbn [audio clip filename]. rewrite decide_False by done.
    unfold try_finally.
    change (try_except (handle hears_axxam_ines order remove_fails) _ _)
      with (Done {| json := Transcription
              (post_process_kabyle_text order (PyStr (py "axxam ines")));
                    status := 200 |},
            {| disk := {[p2]} ∪ ({[p1]} ∪ d); temp_input_file := Some p1;
               processed_file_path := Some p2 |}).
    cbv beta iota. rewrite cleanup_both by (done || congruence). done.
Qed.

End PipelineFacts.

(** C3, as stated, fails on a named upload with an empty payload: it is
    stored and handed to the decoder, and the answer is not 400. *)
Lemma empty_payload_not_rejected :
  payload <$> audio empty_clip = Some []
  ∧ transcribe (Some hears_nothing) canonical_order empty_clip decode_fails ∅
    = (Done {| json := Error
       "Failed to process audio file. Please ensure it's a valid audio format.";
               status := 500 |}, ∅)
  ∧ status_seen
      (transcribe (Some hears_nothing) canonical_order empty_clip decode_fails ∅).1
    ≠ 400.
Proof.
  split; [done|].
  assert (transcribe (Some hears_nothing) canonical_order empty_clip decode_fails ∅
    = (Done {| json := Error
       "Failed to process audio file. Please ensure it's a valid audio format.";
               status := 500 |}, ∅)) as E.
  { rewrite (surjective_pairing (transcribe _ _ _ _ _)).
    rewrite transcribe_cleans_up by done. by vm_compute. }
  split; [exact E|]. by rewrite E.
Qed.

(** C3, as amended, on a form without [audio] field. *)
Lemma transcribe_invalid_input_witness :
  status_seen
    (transcribe (Some hears_nothing) canonical_order {| audio := None |}
       all_ok ∅).1 = 400
  ∧ (transcribe (Some hears_nothing) canonical_order {| audio := None |}
       all_ok ∅).2 = ∅.
Proof.
  assert (status_seen
    (transcribe (Some hears_nothing) canonical_order {| audio := None |}
       all_ok ∅).1 = 400) as E by reflexivity.
  split; [exact E|].
  exact (proj2 (transcribe_invalid_input hears_nothing canonical_order
                  {| audio := None |} all_ok ∅) E).
Defined.

(** C4, as stated, fails on a result whose [text] attribute holds [None]:
    there is no usable text field, yet the entry passes the test of line
    115, the corrector returns [None] unchanged, and the answer is a
    transcription with status 200. *)
Lemma transcribe_none_text_accepted :
  asr_transcribe returns_none_text
  = Some [{| truthy := true; text := Some PyNone |}]
  ∧ no_usable_text [{| truthy := true; text := Some PyNone |}]
  ∧ stages_ok all_ok
  ∧ transcribe (Some returns_none_text) canonical_order clip all_ok ∅
    = (Done {| json := Transcription PyNone; status := 200 |}, ∅)
  ∧ status_seen
      (transcribe (Some returns_none_text) canonical_order clip all_ok ∅).1
    ≠ 500.
Proof.
  split; [reflexivity|]. split; [exact I|]. split; [by repeat split|].
  assert (transcribe (Some returns_none_text) canonical_order clip all_ok ∅
    = (Done {| json := Transcription PyNone; status := 200 |}, ∅)) as E.
  { rewrite (surjective_pairing (transcribe _ _ _ _ _)).
    rewrite transcribe_cleans_up by done. by vm_compute. }
  split; [exact E|]. by rewrite E.
Qed.

(** C4, as amended, on a model that returns an empty list. *)
Lemma transcribe_empty_result_witness :
  audio clip = Some {| filename := "clip.wav"; payload := [82; 73; 70; 70]%N |}
  ∧ stages_ok all_ok
  ∧ result_check_fails []
  ∧ transcribe (Some hears_nothing) canonical_order clip all_ok ∅
    = (Done {| json := Error "Transcription failed. No text returned.";
               status := 500 |}, ∅).
Proof.
  split; [reflexivity|]. split; [by repeat split|]. split; [exact I|].
  apply (transcribe_empty_result hears_nothing canonical_order clip
           {| filename := "clip.wav"; payload := [82; 73; 70; 70]%N |}
           all_ok ∅ []);
    [reflexivity | discriminate | by repeat split | reflexivity
    | reflexivity | exact I].
Defined.

(** * Further properties *)

(** ** The request pipeline, run by run *)

Section PipelineRuns.
Context `{Unicode}.

(** What the [try] block with its handlers returns, and the state it leaves,
    for each way the external calls can go. *)
Lemma guarded_handle_eval m order x d :
  let p1 := fresh d in
  let p2 := fresh ({[p1]} ∪ d) in
  try_except (handle m order x)
    (λ _, lift (jsonify (Error "An internal server error occurred.") 500))
    {| disk := d; temp_input_file := None; processed_file_path := None |}
  = (Done (answer m order x),
     if negb (tmp_input_ok x)
     then {| disk := d; temp_input_file := None; processed_file_path := None |}
     else if negb (save_ok x)
     then {| disk := {[p1]} ∪ d; temp_input_file := None;
             processed_file_path := None |}
     else if negb (decode_ok x && tmp_processed_ok x)
     then {| disk := {[p1]} ∪ d; temp_input_file := Some p1;
             processed_file_path := None |}
     else if negb (export_ok x)
     then {| disk := {[p2]} ∪ ({[p1]} ∪ d); temp_input_file := Some p1;
             processed_file_path := None |}
     else {| disk := {[p2]} ∪ ({[p1]} ∪ d); temp_input_file := Some p1;
             processed_file_path := Some p2 |}).
Proof.
  intros p1 p2.
  unfold answer, handle, try_except, mbind, M_bind, bind, call,
    named_temporary_file, set_temp_input_file, set_processed_file_path,
    ret, raise, lift.
  destruct x as [t1 sv dc t2 ex rm]; cbn [tmp_input_ok save_ok decode_ok
    tmp_processed_ok export_ok remove_ok].
  destruct t1, sv, dc, t2, ex; cbn; try reflexivity;
    destruct (asr_transcribe m) as [[|first l]|]; cbn; try reflexivity;
    destruct (truthy first), (text first) as [[?| |[]]|]; reflexivity.
Qed.

(** The complete table of a request that passed validation: the response or
    the exception, and the disk left behind. *)
Lemma transcribe_cases m order req f x d :
  audio req = Some f → filename f ≠ "" →
  let p1 := fresh d in
  let p2 := fresh ({[p1]} ∪ d) in
  let r := transcribe (Some m) order req x d in
  let a := answer m order x in
  (tmp_input_ok x = false ∧ r = (Done a, d))
  ∨ (tmp_input_ok x = true ∧ save_ok x = false ∧ r = (Done a, {[p1]} ∪ d))
  ∨ (tmp_input_ok x = true ∧ save_ok x = true
     ∧ decode_ok x && tmp_processed_ok x = false
     ∧ ((remove_ok x p1 = true ∧ r = (Done a, d))
        ∨ (remove_ok x p1 = false ∧ r = (Raised OSError, {[p1]} ∪ d))))
  ∨ (tmp_input_ok x = true ∧ save_ok x = true
     ∧ decode_ok x = true ∧ tmp_processed_ok x = true ∧ export_ok x = false
     ∧ ((remove_ok x p1 = true ∧ r = (Done a, {[p2]} ∪ d))
        ∨ (remove_ok x p1 = false
           ∧ r = (Raised OSError, {[p2]} ∪ ({[p1]} ∪ d)))))
  ∨ (stages_ok x
     ∧ ((remove_ok x p1 = true ∧ remove_ok x p2 = true ∧ r = (Done a, d))
        ∨ (remove_ok x p1 = true ∧ remove_ok x p2 = false
           ∧ r = (Raised OSError, {[p2]} ∪ d))
        ∨ (remove_ok x p1 = false
           ∧ r = (Raised OSError, {[p2]} ∪ ({[p1]} ∪ d))))).
Proof.
  intros Hf Hname p1 p2. cbv zeta. unfold transcribe.
  rewrite Hf, decide_False by done. unfold try_finally.
  rewrite guarded_handle_eval. fold p1. fold p2.
  pose proof (is_fresh d) as Hp1. fold p1 in Hp1.
  destruct (fresh_second d) as [Hp21 Hp2].
  fold p1 in Hp21, Hp2. fold p2 in Hp21, Hp2.
  assert (p1 ∈ {[p1]} ∪ d) as M0.
  { apply elem_of_union_l, elem_of_singleton. done. }
  assert (p1 ∈ {[p2]} ∪ ({[p1]} ∪ d)) as M1.
  { apply elem_of_union_r, elem_of_union_l, elem_of_singleton. done. }
  assert (p2 ∈ {[p2]} ∪ ({[p1]} ∪ d)) as M2.
  { apply elem_of_union_l, elem_of_singleton. done. }
  destruct (tmp_input_ok x) eqn:E1; cbn [negb].
  2: { rewrite cleanup_none. left. done. }
  destruct (save_ok x) eqn:E2; cbn [negb].
  2: { rewrite cleanup_none. right; left. done. }
  destruct (decode_ok x && tmp_processed_ok x) eqn:E3; cbn [negb].
  2: { rewrite cleanup_input by done. right; right; left.
       do 3 (split; [done|]).
       destruct (remove_ok x p1); [left|right]; (split; [done|]); cbn;
         [by rewrite remove_fresh | done]. }
  apply andb_true_iff in E3 as [E3 E4].
  destruct (export_ok x) eqn:E5; cbn [negb].
  2: { rewrite cleanup_input by done. right; right; right; left.
       do 5 (split; [done|]).
       destruct (remove_ok x p1); [left|right]; (split; [done|]); cbn;
         [by rewrite remove_first_of_two | done]. }
  rewrite cleanup_both by (done || congruence). right; right; right; right.
  split; [done|].
  destruct (remove_ok x p1); [|right; right; done].
  destruct (remove_ok x p2); [left|right; left]; do 2 (split; [done|]); cbn.
  - rewrite remove_first_of_two by done. by rewrite remove_fresh.
  - by rewrite remove_first_of_two.
Qed.

End PipelineRuns.

Section PipelineProperties.
Context `{Unicode}.

Lemma answer_status m order x : status (answer m order x) = 200
                                ∨ status (answer m order x) = 500.
Proof.
  unfold answer. repeat case_match; auto.
Qed.

(** The handler answers with one of four status codes. *)
Theorem transcribe_status_codes asr_model order req x d :
  let s := status_seen (transcribe asr_model order req x d).1 in
  s = 200 ∨ s = 400 ∨ s = 500 ∨ s = 503.
Proof.
  cbv zeta. destruct asr_model as [m|]; [|auto].
  destruct (audio req) as [f|] eqn:Hf; [|unfold transcribe; rewrite Hf; auto].
  destruct (decide (filename f = "")) as [Hname|Hname].
  { unfold transcribe. rewrite Hf, decide_True by done. auto. }
  pose proof (answer_status m order x) as Ha.
  destruct (transcribe_cases m order req f x d Hf Hname)
    as [[_ ->]|[(_ & _ & ->)|[(_ & _ & _ & [[_ ->]|[_ ->]])
       |[(_ & _ & _ & _ & _ & [[_ ->]|[_ ->]])
       |[_ [(_ & _ & ->)|[(_ & _ & ->)|[_ ->]]]]]]]];
    cbn [fst status_seen]; tauto.
Qed.

(** Status 503 is the answer exactly when loading the model failed at
    start-up. *)
Theorem transcribe_unavailable_iff from_pretrained order req x d :
  status_seen (transcribe (load_asr_model from_pretrained) order req x d).1 = 503
  ↔ ∃ e, from_pretrained = Raised e.
Proof.
  destruct from_pretrained as [m|e]; cbn [load_asr_model].
  - split; [|by intros [? ?]]. intros Hs.
    destruct (audio req) as [f|] eqn:Hf;
      [|unfold transcribe in Hs; rewrite Hf in Hs; done].
    destruct (decide (filename f = "")) as [Hname|Hname].
    { unfold transcribe in Hs. rewrite Hf, decide_True in Hs by done. done. }
    pose proof (answer_status m order x) as Ha.
    destruct (transcribe_cases m order req f x d Hf Hname)
      as [[_ E]|[(_ & _ & E)|[(_ & _ & _ & [[_ E]|[_ E]])
         |[(_ & _ & _ & _ & _ & [[_ E]|[_ E]])
         |[_ [(_ & _ & E)|[(_ & _ & E)|[_ E]]]]]]]];
      rewrite E in Hs; cbn [fst status_seen] in Hs; lia.
  - split; [by eexists|done].
Qed.

(** No exception escapes the handler unless [os.remove] fails on one of the
    two temporary files of the request; the exception is then that of
    [os.remove]. *)
Theorem transcribe_raises_only_on_remove asr_model order req x d e :
  (transcribe asr_model order req x d).1 = Raised e →
  e = OSError
  ∧ (remove_ok x (fresh d) = false
     ∨ remove_ok x (fresh ({[fresh d]} ∪ d)) = false).
Proof.
  destruct asr_model as [m|]; [|done].
  destruct (audio req) as [f|] eqn:Hf;
    [|unfold transcribe; rewrite Hf; done].
  destruct (decide (filename f = "")) as [Hname|Hname].
  { unfold transcribe. rewrite Hf, decide_True by done. done. }
  destruct (transcribe_cases m order req f x d Hf Hname)
    as [[_ ->]|[(_ & _ & ->)|[(_ & _ & _ & [[_ ->]|[? ->]])
       |[(_ & _ & _ & _ & _ & [[_ ->]|[? ->]])
       |[_ [(_ & _ & ->)|[(_ & ? & ->)|[? ->]]]]]]]];
    cbn [fst]; intros [=]; subst; auto.
Qed.

(** The handler never removes a file that was on disk before the request,
    and leaves at most the two temporary files it created itself. *)
Theorem transcribe_disk_frame asr_model order req x d :
  let d' := (transcribe asr_model order req x d).2 in
  d ⊆ d' ∧ d' ⊆ {[fresh ({[fresh d]} ∪ d)]} ∪ ({[fresh d]} ∪ d).
Proof.
  cbv zeta.
  assert (∀ D : gset path, D = d ∨ D = {[fresh d]} ∪ d
            ∨ D = {[fresh ({[fresh d]} ∪ d)]} ∪ d
            ∨ D = {[fresh ({[fresh d]} ∪ d)]} ∪ ({[fresh d]} ∪ d) →
          d ⊆ D ∧ D ⊆ {[fresh ({[fresh d]} ∪ d)]} ∪ ({[fresh d]} ∪ d)) as Hall.
  { intros D [->|[->|[->| ->]]]; split; intros p;
      rewrite ?elem_of_union; tauto. }
  apply Hall.
  destruct asr_model as [m|]; [|by left].
  destruct (audio req) as [f|] eqn:Hf;
    [|unfold transcribe; rewrite Hf; by left].
  destruct (decide (filename f = "")) as [Hname|Hname].
  { unfold transcribe. rewrite Hf, decide_True by done. by left. }
  destruct (transcribe_cases m order req f x d Hf Hname)
    as [[_ ->]|[(_ & _ & ->)|[(_ & _ & _ & [[_ ->]|[_ ->]])
       |[(_ & _ & _ & _ & _ & [[_ ->]|[_ ->]])
       |[_ [(_ & _ & ->)|[(_ & _ & ->)|[_ ->]]]]]]]];
    cbn [snd]; tauto.
Qed.

(** A request that passed validation is answered according to the first
    stage that fails: the internal-error message when the upload cannot be
    stored, the audio message when decoding, the second temporary file or the
    export fails, the model message when the model raises, the no-text
    message when the test of line 115 fails, the internal-error message when
    [jsonify] cannot serialise the text, and otherwise status 200 with the
    corrected text of the first entry.  Only a failing [os.remove] replaces
    this answer. *)
Theorem transcribe_answer m order req f x d :
  audio req = Some f → filename f ≠ "" →
  let r := transcribe (Some m) order req x d in
  (r.1 = Done (answer m order x) ∨ r.1 = Raised OSError)
  ∧ ((∀ p, remove_ok x p = true) → r.1 = Done (answer m order x)).
Proof.
  intros Hf Hname. cbv zeta.
  destruct (transcribe_cases m order req f x d Hf Hname)
    as [[_ ->]|[(_ & _ & ->)|[(_ & _ & _ & [[_ ->]|[? ->]])
       |[(_ & _ & _ & _ & _ & [[_ ->]|[? ->]])
       |[_ [(_ & _ & ->)|[(_ & ? & ->)|[? ->]]]]]]]];
    cbn [fst]; (split; [auto|]); intros Hrm; try done;
    rewrite Hrm in *; done.
Qed.

(** The client sees status 200 if and only if the run is one in which
    nothing goes wrong; and in such a run the handler returns the corrected
    text of the first entry with status 200 and leaves the disk as it was
    before the request. *)
Theorem transcribe_success asr_model order req x d :
  let r := transcribe asr_model order req x d in
  (status_seen r.1 = 200 ↔ ∃ raw, run_succeeds asr_model req x d raw)
  ∧ (∀ raw, run_succeeds asr_model req x d raw →
       r = (Done {| json := Transcription
                      (post_process_kabyle_text order raw);
                    status := 200 |}, d)).
Proof.
  cbv zeta.
  assert (∀ raw, run_succeeds asr_model req x d raw →
    transcribe asr_model order req x d
    = (Done {| json := Transcription (post_process_kabyle_text order raw);
               status := 200 |}, d)) as Hrun.
  { intros raw (m & f & first & rest & -> & Hf & Hname & Hst & Hm & Ht & Hx
                & Hser & R1 & R2).
    assert (answer m order x
            = {| json := Transcription (post_process_kabyle_text order raw);
                 status := 200 |}) as Ha.
    { unfold answer. destruct Hst as (-> & -> & -> & -> & ->). cbn.
      by rewrite Hm, Ht, Hx, Hser. }
    destruct (transcribe_cases m order req f x d Hf Hname)
      as [[E _]|[(_ & E & _)|[(_ & _ & E & _)
         |[(_ & _ & _ & _ & E & _)
         |[_ [(_ & _ & Er)|[(_ & E & _)|[E _]]]]]]]];
      destruct Hst as (E1 & E2 & E3 & E4 & E5); try congruence.
    rewrite E3, E4 in E. done. }
  split; [split|exact Hrun].
  - destruct asr_model as [m|]; [|done].
    destruct (audio req) as [f|] eqn:Hf;
      [|unfold transcribe; rewrite Hf; done].
    destruct (decide (filename f = "")) as [Hname|Hname].
    { unfold transcribe. rewrite Hf, decide_True by done. done. }
    assert (status (answer m order x) = 200 →
      stages_ok x ∧ ∃ first rest raw,
        asr_transcribe m = Some (first :: rest)
        ∧ truthy first = true ∧ text first = Some raw
        ∧ serialisable raw = true) as Ha.
    { unfold answer, stages_ok.
      destruct (tmp_input_ok x), (save_ok x); cbn; try done.
      destruct (decode_ok x), (tmp_processed_ok x), (export_ok x);
        cbn; try done.
      destruct (asr_transcribe m) as [[|first rest]|]; cbn; try done.
      destruct (truthy first) eqn:Ht, (text first) as [raw|] eqn:Hx;
        cbn; try done.
      destruct (serialisable raw) eqn:Hser; cbn; try done.
      intros _. split; [done|]. by exists first, rest, raw. }
    destruct (transcribe_cases m order req f x d Hf Hname)
      as [[E Er]|[(_ & E & Er)|[(_ & _ & E & [[_ Er]|[_ Er]])
         |[(_ & _ & _ & _ & E & [[_ Er]|[_ Er]])
         |[Hst [(R1 & R2 & Er)|[(_ & _ & Er)|[_ Er]]]]]]]];
      rewrite Er; cbn [fst status_seen]; try done; intros Hs;
      destruct (Ha Hs)
        as [(E1 & E2 & E3 & E4 & E5) (first & rest & raw & ? & ? & ? & ?)];
      try congruence.
    + rewrite E3, E4 in E. done.
    + exists raw, m, f, first, rest. done.
  - intros [raw Hr]. by rewrite (Hrun raw Hr).
Qed.

(** When [os.remove] does not fail, the disk is as it was before the request
    exactly when neither saving the upload nor exporting the normalized audio
    raised after its temporary file had been created. *)
Theorem transcribe_restores_disk_iff m order req f x d :
  audio req = Some f → filename f ≠ "" →
  (∀ p, remove_ok x p = true) →
  (transcribe (Some m) order req x d).2 = d
  ↔ ¬ (tmp_input_ok x = true ∧ save_ok x = false)
    ∧ ¬ (tmp_input_ok x = true ∧ save_ok x = true ∧ decode_ok x = true
         ∧ tmp_processed_ok x = true ∧ export_ok x = false).
Proof.
  intros Hf Hname Hrm.
  pose proof (is_fresh d) as Hp1.
  destruct (fresh_second d) as [Hp21 Hp2].
  assert (∀ p : path, p ∉ d → {[p]} ∪ d ≠ d) as Hne.
  { intros p Hp E. apply Hp. rewrite <- E.
    apply elem_of_union_l, elem_of_singleton. done. }
  destruct (transcribe_cases m order req f x d Hf Hname)
    as [[E ->]|[(E1 & E2 & ->)|[(E1 & E2 & E3 & [[_ ->]|[E ->]])
       |[(E1 & E2 & E3 & E4 & E5 & [[_ ->]|[E ->]])
       |[(E1 & E2 & E3 & E4 & E5) [(_ & _ & ->)|[(_ & E & ->)|[E ->]]]]]]]];
    cbn [snd]; rewrite ?Hrm in *; try done.
  - split; [intros _|done]. split; intros (? & ?); congruence.
  - split; [intros E; by apply Hne in E|]. intros [Hn _]. destruct Hn. auto.
  - split; [intros _|done]. split.
    + intros (_ & ?); congruence.
    + intros (_ & _ & ? & ? & _).
      apply andb_false_iff in E3 as [?|?]; congruence.
  - split; [intros E; by apply Hne in E|]. intros [_ Hn]. destruct Hn.
    auto 10.
  - split; [intros _|done]. split.
    + intros (_ & ?); congruence.
    + intros (_ & _ & _ & _ & ?); congruence.
Qed.

End PipelineProperties.

(** ** The annexation pass, match by match *)

Section Matches.
Context `{Unicode}.

Lemma elem_of_counts_down k lo n : k ∈ counts_down lo n ↔ lo ≤ k ∧ k ≤ n.
Proof.
  unfold counts_down. rewrite elem_of_reverse, elem_of_seq. lia.
Qed.

Lemma Forall_take_run p (l : str) k :
  k ≤ run p l → Forall (λ c, p c = true) (take k l).
Proof.
  revert k. induction l as [|c l IH]; intros k Hk.
  - by rewrite take_nil.
  - destruct k as [|k]; [constructor|]. simpl in *.
    destruct (p c) eqn:Hc; [|lia]. constructor; [done|]. apply IH. lia.
Qed.

Lemma matches_alternation_inv s ws b g m :
  b ≤ length s → m ∈ matches s (alternation ws) b g →
  m.2 = g ∧ b ≤ m.1 ∧ m.1 ≤ length s.
Proof.
  intros Hb.
  assert (∀ w, m ∈ matches s (Lit w) b g → m.2 = g ∧ b ≤ m.1 ∧ m.1 ≤ length s)
    as Hlit.
  { intros w. cbn [matches]. destruct (prefix_at w s b) eqn:Hw;
      [|by intros ?%elem_of_nil].
    intros ->%list_elem_of_singleton. simpl.
    unfold prefix_at in Hw. apply bool_decide_eq_true in Hw.
    apply (f_equal length) in Hw. rewrite length_take, length_drop in Hw.
    split; [done|lia]. }
  induction ws as [|w ws IH].
  - simpl. intros ->%list_elem_of_singleton. simpl. split; [done|lia].
  - destruct ws as [|w' ws]; [apply Hlit|].
    change (alternation (w :: w' :: ws))
      with (Alt (Lit w) (alternation (w' :: ws))).
    cbn [matches]. rewrite elem_of_app. intros [Hm|Hm]; [by eapply Hlit|].
    by apply IH.
Qed.

(** Every match of the annexation pattern consists of at least two
    characters captured by the first group, at least one white-space
    character, and the characters captured by the second group. *)
Lemma matches_annexation_inv s ws i j g :
  (j, g) ∈ matches s (annexation_pattern ws) i [] →
  ∃ a b, i + 2 ≤ a ∧ a + 1 ≤ b ∧ b ≤ j ∧ j ≤ length s
    ∧ g = [(2, (b, j)); (1, (i, a))]
    ∧ Forall (λ c, is_space c = true) (take (b - a) (drop a s)).
Proof.
  unfold annexation_pattern. cbn [matches].
  intros (m0 & Hm & Hm0)%list_elem_of_bind.
  destruct (at_boundary s i); [|by apply elem_of_nil in Hm0].
  apply list_elem_of_singleton in Hm0 as ->. cbn [fst snd] in Hm.
  apply list_elem_of_bind in Hm as (m1 & Hm & Hm1).
  apply list_elem_of_fmap in Hm1 as (m1' & -> & Hm1).
  apply list_elem_of_fmap in Hm1 as (n & -> & Hn).
  apply elem_of_counts_down in Hn as [Hn2 Hn]. cbn [fst snd] in Hm.
  pose proof (run_le is_word (drop i s)) as Hrw. rewrite length_drop in Hrw.
  apply list_elem_of_bind in Hm as (m2 & Hm & Hm2).
  apply list_elem_of_fmap in Hm2 as (k & -> & Hk).
  apply elem_of_counts_down in Hk as [Hk1 Hk]. cbn [fst snd] in Hm.
  pose proof (run_le is_space (drop (i + n) s)) as Hrs.
  rewrite length_drop in Hrs.
  apply list_elem_of_bind in Hm as (m3 & Hm & Hm3).
  apply list_elem_of_fmap in Hm3 as (m4 & -> & Hm4).
  apply matches_alternation_inv in Hm4 as (Hg & Hlo & Hhi); [|lia].
  cbn [fst snd] in Hm.
  destruct (at_boundary s m4.1); [|by apply elem_of_nil in Hm].
  apply list_elem_of_singleton in Hm. destruct m4 as [j' g']. simpl in *.
  simplify_eq. exists (i + n), (i + n + k). repeat split; try lia.
  apply Forall_take_run. lia.
Qed.

(** A text in which the pattern matches nowhere is left as it is. *)
Lemma sub_from_no_match s r t :
  (∀ i, match_at s r i = None) →
  ∀ rest i, sub_from s r t i rest 0 = rest.
Proof.
  intros Hno rest. induction rest as [|c rest IH]; intros i; simpl;
    rewrite Hno; [done|]. by rewrite IH.
Qed.

Section Relation.
Variable R : str → str → Prop.
Hypothesis R_nil : R [] [].
Hypothesis R_one : ∀ c, R [c] [c].
Hypothesis R_app : ∀ a b a' b', R a b → R a' b' → R (a ++ a') (b ++ b').

(** A relation that holds between every replacement and the characters it
    replaces, and that is compatible with concatenation, holds between the
    result of [re.sub] and the text. *)
Lemma sub_from_rel s r t :
  (∀ i j g, match_at s r i = Some (j, g) →
     i ≤ j ∧ j ≤ length s ∧ R (expand s g t) (take (j - i) (drop i s))) →
  ∀ n i, length s - i ≤ n → R (sub_from s r t i (drop i s) 0) (drop i s).
Proof.
  intros Hm. induction n as [|n IH]; intros i Hn.
  - rewrite drop_ge by lia. simpl.
    destruct (match_at s r i) as [[j g]|] eqn:E; [|done].
    destruct (Hm _ _ _ E) as (? & ? & HR).
    replace (j - i) with 0 in HR by lia. rewrite take_0 in HR.
    by rewrite app_nil_r.
  - destruct (drop i s) as [|c rest] eqn:Ed.
    { simpl. destruct (match_at s r i) as [[j g]|] eqn:E; [|done].
      destruct (Hm _ _ _ E) as (? & ? & HR).
      apply (f_equal length) in Ed. rewrite length_drop in Ed. simpl in Ed.
      replace (j - i) with 0 in HR by lia. rewrite take_0 in HR.
      by rewrite app_nil_r. }
    assert (drop (S i) s = rest) as Hrest.
    { replace (S i) with (i + 1) by lia. by rewrite <- drop_drop, Ed. }
    assert (i < length s) as Hi.
    { apply (f_equal length) in Ed. rewrite length_drop in Ed.
      simpl in Ed. lia. }
    assert (R (c :: sub_from s r t (S i) rest 0) (c :: rest)) as Hcopy.
    { apply (R_app [c] [c]); [apply R_one|]. rewrite <- Hrest. apply IH. lia. }
    cbn [sub_from]. destruct (match_at s r i) as [[j g]|] eqn:E; [|done].
    destruct (Hm _ _ _ E) as (Hij & Hj & HR).
    case_decide as Hji.
    + replace (j - i) with 0 in HR by lia. rewrite take_0 in HR.
      by apply (R_app _ [] _ (c :: rest)).
    + assert (∃ k, j - i = S k) as [k Hk] by (exists (j - i - 1); lia).
      rewrite Hk, Ed in HR. replace (j - i - 1) with k by lia.
      rewrite sub_from_skip by (rewrite <- Hrest, length_drop; lia).
      rewrite <- (take_drop (S k) (c :: rest)).
      apply R_app; [done|]. cbn [drop].
      rewrite <- Hrest, drop_drop. apply IH. lia.
Qed.

Lemma re_sub_rel s r t :
  (∀ i j g, match_at s r i = Some (j, g) →
     i ≤ j ∧ j ≤ length s ∧ R (expand s g t) (take (j - i) (drop i s))) →
  R (re_sub r t s) s.
Proof.
  intros Hm. unfold re_sub.
  apply (sub_from_rel s r t Hm (length s) 0). lia.
Qed.

End Relation.

Lemma slice_split (s : str) i a j :
  i ≤ a → a ≤ j →
  take (j - i) (drop i s) = take (a - i) (drop i s) ++ take (j - a) (drop a s).
Proof.
  intros Hia Haj. replace (j - i) with ((a - i) + (j - a)) by lia.
  rewrite <- take_take_drop, drop_drop. do 3 f_equal. lia.
Qed.

(** What the template [\1-\2] expands to on a match, and what it
    replaces. *)
Lemma annexation_match s ws i j g :
  match_at s (annexation_pattern ws) i = Some (j, g) →
  ∃ a b, i + 2 ≤ a ∧ a + 1 ≤ b ∧ b ≤ j ∧ j ≤ length s
    ∧ expand s g annexation_template
      = take (a - i) (drop i s) ++ HYPHEN :: take (j - b) (drop b s)
    ∧ take (j - i) (drop i s)
      = take (a - i) (drop i s) ++ take (b - a) (drop a s)
        ++ take (j - b) (drop b s)
    ∧ Forall (λ c, is_space c = true) (take (b - a) (drop a s)).
Proof.
  unfold match_at. intros Hm%head_Some_elem_of.
  apply matches_annexation_inv in Hm as (a & b & ? & ? & ? & ? & -> & Hsp).
  exists a, b. repeat split; try done.
  - unfold expand, annexation_template. cbn. by rewrite app_nil_r.
  - rewrite (slice_split s i a j) by lia.
    by rewrite (slice_split s a b j) by lia.
Qed.

End Matches.

(** ** What the corrector keeps *)

Section Kept.
Context `{Unicode}.

Lemma kept_app a b : kept (a ++ b) = kept a ++ kept b.
Proof. apply filter_app. Qed.

Lemma kept_cons_space c s : is_space c = true → kept (c :: s) = kept s.
Proof.
  intros Hc. unfold kept. rewrite filter_cons, decide_False; [done|].
  intros [? _]. congruence.
Qed.

Lemma kept_cons_hyphen s : kept (HYPHEN :: s) = kept s.
Proof. unfold kept. rewrite filter_cons, decide_False; [done|]. by intros [_ ?]. Qed.

Lemma kept_cons c s : kept (c :: s) = kept [c] ++ kept s.
Proof. apply (kept_app [c]). Qed.

Lemma kept_spaces l : Forall (λ c, is_space c = true) l → kept l = [].
Proof.
  induction 1 as [|c l Hc _ IH]; [done|]. by rewrite kept_cons_space.
Qed.

Lemma kept_squeeze p x b s :
  (∀ c, p c = true → is_space c = true ∨ c = HYPHEN) →
  is_space x = true ∨ x = HYPHEN →
  kept (squeeze p x b s) = kept s.
Proof.
  intros Hp Hx. revert b. induction s as [|c s IH]; intros b; [done|].
  assert (∀ c s, is_space c = true ∨ c = HYPHEN → kept (c :: s) = kept s)
    as Hdrop.
  { intros c' s' [?| ->]; [by apply kept_cons_space | apply kept_cons_hyphen]. }
  simpl. destruct (p c) eqn:Hc.
  - rewrite (Hdrop c s) by auto. destruct b; [apply IH|].
    rewrite Hdrop by done. apply IH.
  - rewrite (kept_cons c (squeeze _ _ _ _)), (kept_cons c s). by rewrite IH.
Qed.

Lemma kept_lstrip s : kept (lstrip s) = kept s.
Proof.
  induction s as [|c s IH]; [done|]. simpl.
  destruct (is_space c) eqn:Hc; [|done]. by rewrite kept_cons_space.
Qed.

Lemma kept_strip s : kept (strip s) = kept s.
Proof.
  unfold strip, rstrip, kept. rewrite filter_reverse.
  fold (kept (lstrip (reverse (lstrip s)))). rewrite kept_lstrip.
  unfold kept. rewrite filter_reverse, reverse_involutive.
  apply kept_lstrip.
Qed.

Lemma kept_annexation ws s :
  kept (re_sub (annexation_pattern ws) annexation_template s) = kept s.
Proof.
  apply (re_sub_rel (λ x y, kept x = kept y)); [done|done| |].
  - intros a b a' b' E E'. by rewrite !kept_app, E, E'.
  - intros i j g (a & b & ? & ? & ? & ? & -> & -> & Hsp)%annexation_match.
    split; [lia|]. split; [done|].
    rewrite !kept_app, kept_cons_hyphen. by rewrite (kept_spaces _ Hsp).
Qed.

(** The corrector touches white space and hyphens only: the other
    characters of the lower-cased text come out unchanged, all of them and
    in the same order. *)
Theorem correct_keeps_content order text :
  text ≠ [] → kept (correct order text) = kept (lower text).
Proof.
  intros Hne. unfold correct. destruct text as [|c0 text]; [done|]. cbv zeta.
  change (λ c, bool_decide (c = HYPHEN)) with is_hyphen.
  rewrite !re_sub_many.
  rewrite kept_squeeze; [|intros c ?%is_hyphen_eq; by right|by right].
  rewrite kept_strip.
  rewrite kept_squeeze; [|by left|left; apply space_is_space].
  apply kept_annexation.
Qed.

Lemma length_squeeze p x b s : length (squeeze p x b s) ≤ length s.
Proof.
  revert b. induction s as [|c s IH]; intros b; [done|]. simpl.
  destruct (p c); [destruct b|]; simpl;
    [pose proof (IH true) | pose proof (IH true) | pose proof (IH false)]; lia.
Qed.

Lemma length_lstrip s : length (lstrip s) ≤ length s.
Proof.
  induction s as [|c s IH]; [done|]. simpl.
  destruct (is_space c); simpl; lia.
Qed.

Lemma length_strip s : length (strip s) ≤ length s.
Proof.
  unfold strip, rstrip. rewrite length_reverse.
  pose proof (length_lstrip (reverse (lstrip s))) as H1.
  rewrite length_reverse in H1. pose proof (length_lstrip s). lia.
Qed.

Lemma length_annexation ws s :
  length (re_sub (annexation_pattern ws) annexation_template s) ≤ length s.
Proof.
  apply (re_sub_rel (λ x y, length x ≤ length y)); [done|done| |].
  - intros a b a' b' E E'. rewrite !length_app. lia.
  - intros i j g (a & b & ? & ? & ? & ? & -> & -> & Hsp)%annexation_match.
    split; [lia|]. split; [done|].
    rewrite !length_app. cbn [length].
    rewrite !length_take, !length_drop. lia.
Qed.

(** The corrected text is never longer than the lower-cased text. *)
Theorem correct_length order text :
  length (correct order text) ≤ length (lower text).
Proof.
  unfold correct. destruct text as [|c0 text]; [simpl; lia|]. cbv zeta.
  rewrite !re_sub_many.
  etrans; [apply length_squeeze|]. etrans; [apply length_strip|].
  etrans; [apply length_squeeze|]. apply length_annexation.
Qed.

Lemma squeeze_none p x b s :
  Forall (λ c, p c = false) s → squeeze p x b s = s.
Proof.
  intros Hs. revert b. induction Hs as [|c s Hc _ IH]; intros b; [done|].
  simpl. by rewrite Hc, IH.
Qed.

Lemma lstrip_none s : Forall (λ c, is_space c = false) s → lstrip s = s.
Proof. destruct 1 as [|c s Hc _]; [done|]. simpl. by rewrite Hc. Qed.

Lemma strip_none s : Forall (λ c, is_space c = false) s → strip s = s.
Proof.
  intros Hs. unfold strip, rstrip. rewrite (lstrip_none s) by done.
  rewrite lstrip_none; [apply reverse_involutive|].
  rewrite Forall_forall in Hs. apply Forall_forall.
  intros c Hc. apply Hs. by apply elem_of_reverse.
Qed.

Lemma annexation_needs_space ws s :
  Forall (λ c, is_space c = false) s →
  re_sub (annexation_pattern ws) annexation_template s = s.
Proof.
  intros Hs. unfold re_sub. apply sub_from_no_match. intros i.
  destruct (match_at s (annexation_pattern ws) i) as [[j g]|] eqn:E; [|done].
  apply annexation_match in E as (a & b & ? & ? & ? & ? & _ & _ & Hsp).
  exfalso.
  destruct (lookup_lt_is_Some_2 (take (b - a) (drop a s)) 0) as [c Hc].
  { rewrite length_take, length_drop. lia. }
  pose proof (Forall_lookup_1 _ _ _ _ Hsp Hc) as Hc1.
  apply list_elem_of_lookup_2, subseteq_take, subseteq_drop in Hc.
  rewrite Forall_forall in Hs. apply Hs in Hc. congruence.
Qed.

(** A text whose lower-cased form has no white space is lower-cased and has
    its runs of hyphens collapsed, nothing else: annexation needs white
    space. *)
Theorem correct_without_space order text :
  text ≠ [] → Forall (λ c, is_space c = false) (lower text) →
  correct order text = squeeze is_hyphen HYPHEN false (lower text).
Proof.
  intros Hne Hs. unfold correct. destruct text as [|c0 text]; [done|].
  cbv zeta. change (λ c, bool_decide (c = HYPHEN)) with is_hyphen.
  rewrite !re_sub_many, annexation_needs_space by done.
  rewrite (squeeze_none is_space) by done. by rewrite strip_none.
Qed.

End Kept.

(** ** The annexation rule, word by word *)

Section Rule.
Context `{Unicode}.
Hypothesis Hsw : space_not_word.

Lemma run_lookup_lt p (l : str) k :
  k < run p l → ∃ c, l !! k = Some c ∧ p c = true.
Proof.
  revert k. induction l as [|c l IH]; intros k; simpl; [lia|].
  destruct (p c) eqn:Hc; [|lia]. destruct k as [|k]; [eauto|].
  intros Hk. apply IH. lia.
Qed.

Lemma run_lookup_eq p (l : str) c : l !! run p l = Some c → p c = false.
Proof.
  induction l as [|c' l IH]; simpl; [done|].
  destruct (p c') eqn:Hc'; [done|]. simpl. congruence.
Qed.

Lemma run_head_false p (l : str) :
  (∀ c, l !! 0 = Some c → p c = false) → run p l = 0.
Proof. destruct l as [|c l]; [done|]. simpl. intros Hc. by rewrite Hc. Qed.

Lemma run_head_true p (c : N) (l : str) :
  l !! 0 = Some c → p c = true → 1 ≤ run p l.
Proof. destruct l as [|c' l]; [done|]. simpl. intros [= ->] ->. lia. Qed.

Lemma counts_down_nil lo n : n < lo → counts_down lo n = [].
Proof. intros Hn. unfold counts_down. by replace (S n - lo) with 0 by lia. Qed.

Lemma counts_down_split lo n :
  lo ≤ n → ∃ l, counts_down lo n = n :: l ∧ ∀ k, k ∈ l → lo ≤ k ∧ k < n.
Proof.
  intros Hn. unfold counts_down. replace (S n - lo) with (S (n - lo)) by lia.
  rewrite seq_S, reverse_app. simpl. eexists. split; [f_equal; lia|].
  intros k. rewrite elem_of_reverse, elem_of_seq. lia.
Qed.

Lemma bind_nil_all {A B} (F : A → list B) (l : list A) :
  (∀ y, y ∈ l → F y = []) → l ≫= F = [].
Proof.
  induction l as [|y l IH]; [done|]. intros Hl.
  rewrite bind_cons, Hl, IH; [done| |left]. intros z Hz. apply Hl. by right.
Qed.

Lemma head_bind_decide {A B} `{EqDecision A} (l : list A) (W : A) (r : B) :
  head (l ≫= λ w, if bool_decide (w = W) then [r] else [])
  = if bool_decide (W ∈ l) then Some r else None.
Proof.
  induction l as [|w l IH].
  - rewrite (bool_decide_eq_false_2 (W ∈ [])); [done|].
    by intros ?%elem_of_nil.
  - rewrite bind_cons. destruct (decide (w = W)) as [->|Hw].
    + rewrite (bool_decide_eq_true_2 (W = W)) by done.
      by rewrite (bool_decide_eq_true_2 (W ∈ W :: l)) by left.
    + rewrite (bool_decide_eq_false_2 (w = W)) by done. simpl. rewrite IH.
      rewrite (bool_decide_ext (W ∈ l) (W ∈ w :: l)); [done|].
      rewrite elem_of_cons. split; [auto|]. by intros [->|?].
Qed.

Lemma word_not_space c : is_word c = true → is_space c = false.
Proof.
  intros Hw. destruct (is_space c) eqn:Hs; [|done].
  apply Hsw in Hs. congruence.
Qed.

(** Inside a run of word characters there is no white space to match. *)
Lemma no_space_inside_word s i k :
  k < run is_word (drop i s) → run is_space (drop (i + k) s) = 0.
Proof.
  intros (c & Hc & Hw)%run_lookup_lt. rewrite lookup_drop in Hc.
  apply run_head_false. intros c'. rewrite lookup_drop, Nat.add_0_r, Hc.
  intros [= <-]. by apply word_not_space.
Qed.

(** No particle starts at a white-space character. *)
Lemma no_particle_at_space s ws b g c :
  s !! b = Some c → is_space c = true → Forall word_string ws →
  ws ≫= particle_match s b g = [].
Proof.
  intros Hb Hc Hws. apply bind_nil_all. intros w Hw.
  rewrite Forall_forall in Hws. destruct (Hws w Hw) as [Hne Hword].
  unfold particle_match. destruct (prefix_at w s b) eqn:Hp; [|done].
  destruct w as [|c0 w]; [done|].
  pose proof (prefix_at_lookup _ _ _ 0 c0 Hp eq_refl) as H0.
  rewrite Nat.add_0_r, Hb in H0. injection H0 as ->.
  apply Forall_cons_1 in Hword as [Hc0 _]. apply Hsw in Hc. congruence.
Qed.

(** The whole word that starts at [b], when there is one, is a literal
    that matches at [b] and ends at a word boundary. *)
Lemma word_run_matches s b :
  1 ≤ run is_word (drop b s) →
  let v := run is_word (drop b s) in
  length (word_run s b) = v ∧ word_string (word_run s b)
  ∧ prefix_at (word_run s b) s b = true
  ∧ at_boundary s (b + v) = true.
Proof.
  intros Hv v. pose proof (run_le is_word (drop b s)) as Hle.
  assert (length (word_run s b) = v) as Hlen.
  { unfold word_run. by rewrite length_take_le. }
  split; [done|]. split; [|split].
  - split.
    + intros E. rewrite E in Hlen. simpl in Hlen. lia.
    + by apply Forall_take_run.
  - unfold prefix_at. apply bool_decide_eq_true_2. by rewrite Hlen.
  - unfold at_boundary. destruct (b + v) as [|j] eqn:Hj; [lia|].
    destruct (run_lookup_lt is_word (drop b s) (v - 1)) as (c & Hc & Hw);
      [lia|].
    rewrite lookup_drop in Hc. replace (b + (v - 1)) with j in Hc by lia.
    unfold word_at. rewrite Hc, Hw.
    destruct (s !! S j) as [c'|] eqn:Hc'; [|done].
    rewrite <- Hj, <- lookup_drop in Hc'.
    by rewrite (run_lookup_eq _ _ _ Hc').
Qed.

(** At a position the only particle that can match is the whole word that
    starts there. *)
Lemma particle_match_word_run s ws b g :
  Forall word_string ws →
  ws ≫= particle_match s b g
  = ws ≫= λ w, if bool_decide (w = word_run s b)
               then [(b + run is_word (drop b s),
                      (2, (b, b + run is_word (drop b s))) :: g)]
               else [].
Proof.
  intros Hws. apply Forall_bind_ext. eapply Forall_impl; [exact Hws|].
  intros w [Hne Hword]. simpl.
  destruct (decide (1 ≤ run is_word (drop b s))) as [Hv|Hv].
  - destruct (word_run_matches s b Hv) as (Hlen & HW & Hp & Hb).
    case_bool_decide as Hw.
    + subst w. unfold particle_match. by rewrite Hp, Hlen, Hb.
    + unfold particle_match.
      destruct (prefix_at w s b) eqn:Hpw; [|done].
      destruct (at_boundary s (b + length w)) eqn:Hbw; [|done].
      destruct Hw. destruct HW as [HWne HWword].
      apply (literal_at_boundary_unique w (word_run s b) s b); try done.
      by rewrite Hlen.
  - assert (prefix_at w s b = false) as Hpw.
    { destruct (prefix_at w s b) eqn:Hpw; [|done].
      destruct w as [|c0 w]; [done|].
      pose proof (prefix_at_lookup _ _ _ 0 c0 Hpw eq_refl) as H0.
      rewrite Nat.add_0_r, <- (Nat.add_0_r b), <- lookup_drop in H0.
      apply Forall_cons_1 in Hword as [Hc0 _].
      pose proof (run_head_true _ _ _ H0 Hc0). lia. }
    unfold particle_match. rewrite Hpw. simpl.
    case_bool_decide as Hw; [|done]. subst w. unfold word_run in Hne.
    replace (run is_word (drop b s)) with 0 in Hne by lia. done.
Qed.

(** The pattern over any list of word strings, against the rule read word
    by word. *)
Lemma match_at_annex_at s ws i :
  ws ≠ [] → Forall word_string ws →
  match_at s (annexation_pattern ws) i = annex_at s ws i.
Proof.
  intros Hne Hws. unfold match_at, annexation_pattern, annex_at.
  cbn [matches]. cbv zeta.
  destruct (at_boundary s i); [|done].
  rewrite bind_singleton. cbn [fst snd andb].
  destruct (decide (2 ≤ run is_word (drop i s))) as [Hn|Hn].
  2: { rewrite counts_down_nil by lia.
       by rewrite (bool_decide_eq_false_2 (i + 2 ≤ _)) by lia. }
  destruct (counts_down_split 2 _ Hn) as (l1 & -> & Hl1).
  rewrite !fmap_cons, bind_cons. cbn [fst snd].
  rewrite (bind_nil_all _ (_ <$> (_ <$> l1))), app_nil_r.
  2: { intros y (y1 & -> & (k & -> & Hk)%list_elem_of_fmap)%list_elem_of_fmap.
       apply Hl1 in Hk. cbn [fst snd].
       by rewrite no_space_inside_word by lia. }
  destruct (decide (1 ≤ run is_space (drop (i + run is_word (drop i s)) s)))
    as [Hk|Hk].
  2: { rewrite counts_down_nil by lia.
       rewrite (bool_decide_eq_false_2 (_ + 1 ≤ _)) by lia.
       by rewrite andb_false_r. }
  destruct (counts_down_split 1 _ Hk) as (l2 & -> & Hl2).
  rewrite fmap_cons, bind_cons. cbn [fst snd].
  rewrite (bind_nil_all _ (_ <$> l2)), app_nil_r.
  2: { intros y (k & -> & Hk')%list_elem_of_fmap. apply Hl2 in Hk'.
       cbn [fst snd].
       destruct (run_lookup_lt is_space
                   (drop (i + run is_word (drop i s)) s) k)
         as (c & Hc & Hsp); [lia|].
       rewrite lookup_drop in Hc.
       pose proof (matches_particle_tail s ws
         (i + run is_word (drop i s) + k)
         [(1, (i, i + run is_word (drop i s)))] Hne) as E.
       cbn [matches] in E. rewrite E.
       by apply (no_particle_at_space s ws _ _ c). }
  pose proof (matches_particle_tail s ws
    (i + run is_word (drop i s)
     + run is_space (drop (i + run is_word (drop i s)) s))
    [(1, (i, i + run is_word (drop i s)))] Hne) as E.
  cbn [matches] in E. rewrite E.
  rewrite particle_match_word_run, head_bind_decide by done.
  rewrite (bool_decide_eq_true_2 (i + 2 ≤ _)) by lia.
  rewrite (bool_decide_eq_true_2 (_ + 1 ≤ _)) by lia.
  done.
Qed.

Lemma sorted_particles_word_strings order :
  iteration_order order →
  sorted_all_annexable order ≠ []
  ∧ Forall word_string (sorted_all_annexable order).
Proof.
  intros Ho.
  assert (sorted_all_annexable order ≡ₚ elements all_annexable_particles)
    as Hperm.
  { unfold sorted_all_annexable. by rewrite sorted_by_len_perm. }
  split.
  - intros E. apply Permutation_length in Hperm. rewrite E in Hperm.
    by vm_compute in Hperm.
  - rewrite Hperm. apply particles_word_strings, iteration_order_canonical.
Qed.

(** The pattern the code builds matches at a position exactly as the rule
    read word by word says: the stem is the whole word of at least two
    characters at that position, all the white space after it is skipped,
    and the particle is the whole next word.  The order of the alternation
    plays no part. *)
Theorem match_at_annexation order s i :
  iteration_order order →
  match_at s (annexation_pattern (sorted_all_annexable order)) i
  = annex_at s canonical_order i.
Proof.
  intros Ho. destruct (sorted_particles_word_strings order Ho) as [Hne Hws].
  rewrite match_at_annex_at by done. unfold annex_at. cbv zeta.
  assert (sorted_all_annexable order ≡ₚ canonical_order) as Hperm.
  { unfold sorted_all_annexable. by rewrite sorted_by_len_perm. }
  set (w := word_run s _).
  rewrite (bool_decide_ext (w ∈ sorted_all_annexable order)
             (w ∈ canonical_order)); [done|].
  by rewrite Hperm.
Qed.

End Rule.

(** ** A stem and one more word *)

Section TwoWords.
Context `{Unicode}.
Hypothesis Hsw : space_not_word.

Lemma run_app_all p (u l : str) :
  Forall (λ c, p c = true) u → run p (u ++ l) = length u + run p l.
Proof. induction 1 as [|c u Hc _ IH]; [done|]. simpl. by rewrite Hc, IH. Qed.

Lemma run_all p (u : str) : Forall (λ c, p c = true) u → run p u = length u.
Proof.
  intros Hu. rewrite <- (app_nil_r u) at 1. rewrite run_app_all by done.
  simpl. lia.
Qed.

Lemma squeeze_app_none p x b (u l : str) :
  Forall (λ c, p c = false) u → u ≠ [] →
  squeeze p x b (u ++ l) = u ++ squeeze p x false l.
Proof.
  intros Hu. revert b. induction Hu as [|c u Hc Hu IH]; intros b Hne; [done|].
  simpl. rewrite Hc. f_equal. destruct u as [|c' u]; [done|]. by apply IH.
Qed.

Lemma sub_from_match s r t i rest j g :
  match_at s r i = Some (j, g) → i < j → j - i ≤ length rest →
  sub_from s r t i rest 0
  = expand s g t ++ sub_from s r t j (drop (j - i) rest) 0.
Proof.
  intros Hm Hij Hj. destruct rest as [|c rest]; simpl in Hj; [lia|].
  cbn [sub_from]. rewrite Hm, decide_False by lia.
  rewrite sub_from_skip by lia. f_equal.
  assert (∃ k, j - i = S k) as [k Hk] by (exists (j - i - 1); lia).
  rewrite Hk. cbn [drop]. replace (S k - 1) with k by lia.
  f_equal. lia.
Qed.

Lemma sub_from_end s r t i :
  match_at s r i = None → sub_from s r t i [] 0 = [].
Proof. intros Hm. simpl. by rewrite Hm. Qed.

Lemma lstrip_head s :
  (∀ c, head s = Some c → is_space c = false) → lstrip s = s.
Proof. destruct s as [|c s]; [done|]. simpl. intros Hc. by rewrite Hc. Qed.

Lemma strip_ends s :
  (∀ c, head s = Some c → is_space c = false) →
  (∀ c, last s = Some c → is_space c = false) →
  strip s = s.
Proof.
  intros Hh Hl. unfold strip, rstrip. rewrite (lstrip_head s) by done.
  rewrite lstrip_head; [apply reverse_involutive|].
  intros c. rewrite head_reverse. apply Hl.
Qed.

Section Text.
Variables u v : str.
Hypothesis Hu : plain_word u.
Hypothesis Hv : plain_word v.

Local Abbreviation s := (u ++ SPACE :: v).

Lemma plain_word_chars w c :
  plain_word w → c ∈ w →
  is_word c = true ∧ is_space c = false ∧ is_hyphen c = false.
Proof.
  intros [_ Hw] Hc. rewrite Forall_forall in Hw.
  destruct (Hw c Hc) as [Hword Hhy]. split; [done|]. split.
  - by apply word_not_space.
  - unfold is_hyphen. by apply bool_decide_eq_false_2.
Qed.

Lemma plain_word_word w : plain_word w → Forall (λ c, is_word c = true) w.
Proof.
  intros Hw. apply Forall_forall. intros c Hc.
  by destruct (plain_word_chars w c Hw Hc).
Qed.

Lemma plain_word_no_space w : plain_word w → Forall (λ c, is_space c = false) w.
Proof.
  intros Hw. apply Forall_forall. intros c Hc.
  by destruct (plain_word_chars w c Hw Hc) as (_ & ? & _).
Qed.

Lemma plain_word_no_hyphen w :
  plain_word w → Forall (λ c, is_hyphen c = false) w.
Proof.
  intros Hw. apply Forall_forall. intros c Hc.
  by destruct (plain_word_chars w c Hw Hc) as (_ & _ & ?).
Qed.

Lemma space_is_not_word : is_word SPACE = false.
Proof. apply Hsw, space_is_space. Qed.

(** The only white-space character of the text is the one between the two
    words. *)
Lemma two_words_space i c :
  s !! i = Some c → is_space c = true → i = length u.
Proof.
  intros Hi Hc.
  destruct (lt_eq_lt_dec i (length u)) as [[Hlt|Heq]|Hgt]; [|done|].
  - rewrite lookup_app_l in Hi by done.
    apply list_elem_of_lookup_2 in Hi.
    destruct (plain_word_chars u c Hu Hi) as (_ & ? & _). congruence.
  - rewrite lookup_app_r in Hi by lia.
    destruct (i - length u) as [|k] eqn:Hk; [lia|]. simpl in Hi.
    apply list_elem_of_lookup_2 in Hi.
    destruct (plain_word_chars v c Hv Hi) as (_ & ? & _). congruence.
Qed.

Lemma two_words_runs :
  at_boundary s 0 = true
  ∧ run is_word (drop 0 s) = length u
  ∧ run is_space (drop (length u) s) = 1
  ∧ run is_word (drop (length u + 1) s) = length v
  ∧ word_run s (length u + 1) = v.
Proof.
  pose proof (plain_word_word u Hu) as Huw.
  pose proof (plain_word_word v Hv) as Hvw.
  assert (drop (length u) s = SPACE :: v) as E1 by apply drop_app_length.
  assert (drop (length u + 1) s = v) as E2.
  { by rewrite <- drop_drop, E1. }
  split; [|split; [|split; [|split]]].
  - unfold at_boundary, word_at. destruct Hu as [Hne _].
    destruct u as [|c0 u0]; [done|]. simpl.
    apply Forall_cons_1 in Huw as [-> _]. done.
  - rewrite drop_0. rewrite run_app_all by done. simpl.
    rewrite space_is_not_word. lia.
  - rewrite E1. simpl. rewrite space_is_space. f_equal.
    apply run_head_false. destruct Hv as [Hne _].
    destruct v as [|c0 v0]; [done|]. intros c [= <-].
    apply word_not_space; [done|]. by apply Forall_cons_1 in Hvw as [? _].
  - rewrite E2. by apply run_all.
  - unfold word_run. rewrite E2, run_all by done. apply take_ge. lia.
Qed.

(** The rule applies at the start of the text when the stem has two
    characters and the second word is a particle, and nowhere else. *)
Lemma two_words_annex_at ws i :
  annex_at s ws i
  = if bool_decide (i = 0) && bool_decide (2 ≤ length u)
       && bool_decide (v ∈ ws)
    then Some (length s, [(2, (length u + 1, length s)); (1, (0, length u))])
    else None.
Proof.
  destruct two_words_runs as (Hb & Hn & Hk & Hm & Hw).
  destruct (decide (i = 0)) as [->|Hi].
  - unfold annex_at. cbn [Nat.add]. rewrite Hn, Hk, Hm, Hw, Hb.
    rewrite (bool_decide_eq_true_2 (length u + 1 ≤ _)) by lia.
    rewrite (bool_decide_eq_true_2 (0 = 0)) by done. cbn [andb].
    replace (length u + 1 + length v) with (length s).
    2: { rewrite length_app. simpl. lia. }
    by rewrite andb_true_r.
  - rewrite (bool_decide_eq_false_2 (i = 0)) by done. cbn [andb].
    unfold annex_at.
    destruct (at_boundary s i) eqn:Hbi; [|done]. cbn [andb].
    case_bool_decide as H2; [|done]. cbn [andb].
    case_bool_decide as H1; [|done]. exfalso.
    destruct (run_lookup_lt is_space (drop (i + run is_word (drop i s)) s) 0)
      as (c & Hc & Hsp); [lia|].
    rewrite lookup_drop, Nat.add_0_r in Hc.
    pose proof (two_words_space _ _ Hc Hsp) as Ha.
    unfold at_boundary in Hbi. destruct i as [|i']; [done|].
    assert (word_at s i' = true ∧ word_at s (S i') = true) as [Hw1 Hw2].
    { pose proof (plain_word_word u Hu) as Huw.
      rewrite Forall_lookup in Huw. unfold word_at.
      destruct (lookup_lt_is_Some_2 u i') as [c1 Hc1]; [lia|].
      destruct (lookup_lt_is_Some_2 u (S i')) as [c2 Hc2]; [lia|].
      rewrite !lookup_app_l by lia. rewrite Hc1, Hc2.
      split; by eapply Huw. }
    by rewrite Hw1, Hw2 in Hbi.
Qed.

End Text.

(** For a stem [u] and a second word [v], both made of word characters and
    already in lower case: [u v] becomes [u-v] when the stem has at least two
    characters and [v] is one of the particles, and is left as it is
    otherwise. *)
Theorem correct_two_words order u v :
  iteration_order order → plain_word u → plain_word v →
  lower (u ++ SPACE :: v) = u ++ SPACE :: v →
  correct order (u ++ SPACE :: v)
  = if bool_decide (2 ≤ length u ∧ v ∈ all_annexable_particles)
    then u ++ HYPHEN :: v
    else u ++ SPACE :: v.
Proof.
  intros Ho Hu Hv Hlow.
  set (ws := sorted_all_annexable order).
  assert (ws ≡ₚ elements all_annexable_particles) as Hperm.
  { unfold ws, sorted_all_annexable. by rewrite sorted_by_len_perm. }
  assert (Forall word_string ws) as Hws.
  { rewrite Hperm. apply particles_word_strings, iteration_order_canonical. }
  assert (ws ≠ []) as Hne.
  { intros E. apply Permutation_length in Hperm. rewrite E in Hperm.
    by vm_compute in Hperm. }
  assert (v ∈ ws ↔ v ∈ all_annexable_particles) as Hin.
  { by rewrite Hperm, elem_of_elements. }
  pose proof (plain_word_no_space u Hu) as Hus.
  pose proof (plain_word_no_space v Hv) as Hvs.
  pose proof (plain_word_no_hyphen u Hu) as Huh.
  pose proof (plain_word_no_hyphen v Hv) as Hvh.
  assert (u ≠ []) as Hune by apply Hu.
  assert (correct order (u ++ SPACE :: v)
          = re_sub (Many is_hyphen 1) [Text HYPHEN]
              (strip (re_sub (Many is_space 1) [Text SPACE]
                 (re_sub (annexation_pattern ws) annexation_template
                    (lower (u ++ SPACE :: v)))))) as ->.
  { unfold correct. destruct (u ++ SPACE :: v) eqn:E; [by destruct u|done]. }
  rewrite Hlow, !re_sub_many.
  assert (re_sub (annexation_pattern ws) annexation_template (u ++ SPACE :: v)
          = if bool_decide (2 ≤ length u) && bool_decide (v ∈ ws)
            then u ++ HYPHEN :: v else u ++ SPACE :: v) as ->.
  { unfold re_sub.
    destruct (bool_decide (2 ≤ length u) && bool_decide (v ∈ ws)) eqn:Hm.
    - rewrite (sub_from_match _ _ _ 0 _ (length (u ++ SPACE :: v))
                 [(2, (length u + 1, length (u ++ SPACE :: v)));
                  (1, (0, length u))]).
      2: { rewrite (match_at_annex_at Hsw) by done.
           rewrite (two_words_annex_at u v Hu Hv).
           rewrite (bool_decide_eq_true_2 (0 = 0)) by done. cbn [andb].
           by rewrite Hm. }
      2: { rewrite length_app. simpl. lia. }
      2: { lia. }
      rewrite drop_ge by lia. rewrite sub_from_end.
      2: { rewrite (match_at_annex_at Hsw) by done.
           rewrite (two_words_annex_at u v Hu Hv).
           rewrite (bool_decide_eq_false_2 (_ = 0)); [done|].
           rewrite length_app. simpl. lia. }
      rewrite app_nil_r.
      assert (expand (u ++ SPACE :: v)
                [(2, (length u + 1, length (u ++ SPACE :: v)));
                 (1, (0, length u))] annexation_template
              = take (length u - 0) (drop 0 (u ++ SPACE :: v))
                ++ HYPHEN
                   :: take (length (u ++ SPACE :: v) - (length u + 1))
                        (drop (length u + 1) (u ++ SPACE :: v)) ++ [])
        as -> by reflexivity.
      rewrite Nat.sub_0_r, app_nil_r, drop_0, take_app_length.
      replace (length (u ++ SPACE :: v) - (length u + 1)) with (length v).
      2: { rewrite length_app. simpl. lia. }
      rewrite <- drop_drop, drop_app_length. simpl.
      by rewrite drop_0, take_ge by lia.
    - apply sub_from_no_match. intros i.
      rewrite (match_at_annex_at Hsw) by done.
      rewrite (two_words_annex_at u v Hu Hv).
      by rewrite <- andb_assoc, Hm, andb_false_r. }
  assert (bool_decide (2 ≤ length u) && bool_decide (v ∈ ws)
          = bool_decide (2 ≤ length u ∧ v ∈ all_annexable_particles)) as ->.
  { rewrite <- bool_decide_and. apply bool_decide_ext. by rewrite Hin. }
  case_bool_decide as Hm.
  - rewrite (squeeze_none is_space).
    2: { apply Forall_app. split; [done|]. constructor; [|done].
         apply hyphen_not_space. }
    rewrite strip_none.
    2: { apply Forall_app. split; [done|]. constructor; [|done].
         apply hyphen_not_space. }
    rewrite squeeze_app_none by done. simpl.
    by rewrite squeeze_none.
  - rewrite squeeze_app_none by done. simpl. rewrite space_is_space.
    rewrite (squeeze_none is_space) by done.
    rewrite strip_ends.
    + apply squeeze_none. apply Forall_app. split; [done|].
      constructor; [by apply bool_decide_eq_false_2|done].
    + destruct u as [|c1 u1]; [done|]. simpl. intros c [= <-].
      by apply Forall_cons_1 in Hus as [? _].
    + rewrite last_app. simpl. destruct Hv as [Hvne _].
      rewrite last_cons.
      destruct (last v) as [c1|] eqn:Hl; [|by apply last_None in Hl].
      intros c [= <-]. rewrite Forall_forall in Hvs. apply Hvs.
      apply last_Some in Hl as [l' ->]. apply elem_of_app. right. by left.
Qed.

End TwoWords.

(** ** A text of white space only *)

Section Blank.
Context `{Unicode}.
Hypothesis Hsw : space_not_word.

Lemma squeeze_all p x (s : str) :
  Forall (λ c, p c = true) s → squeeze p x true s = [].
Proof. induction 1 as [|c s Hc _ IH]; [done|]. simpl. by rewrite Hc. Qed.

Lemma annexation_needs_word ws s :
  ws ≠ [] → Forall word_string ws →
  Forall (λ c, is_space c = true) s →
  re_sub (annexation_pattern ws) annexation_template s = s.
Proof.
  intros Hne Hws Hs. unfold re_sub. apply sub_from_no_match. intros i.
  rewrite (match_at_annex_at Hsw) by done. unfold annex_at. cbv zeta.
  rewrite (run_head_false is_word (drop i s)).
  2: { intros c Hc. apply Hsw. rewrite Forall_forall in Hs. apply Hs.
       eapply subseteq_drop, list_elem_of_lookup_2, Hc. }
  rewrite (bool_decide_eq_false_2 (i + 2 ≤ i + 0)) by lia.
  by rewrite andb_false_r.
Qed.

(** A text whose lower-cased form is white space only is corrected to the
    empty string. *)
Theorem correct_blank order text :
  iteration_order order →
  Forall (λ c, is_space c = true) (lower text) →
  correct order text = [].
Proof.
  intros Ho Hs. unfold correct. destruct text as [|c0 text]; [done|].
  cbv zeta.
  destruct (sorted_particles_word_strings order Ho) as [Hne Hws].
  rewrite !re_sub_many, annexation_needs_word by done.
  destruct (lower (c0 :: text)) as [|c s]; [done|].
  apply Forall_cons in Hs as [Hc Hs]. simpl. rewrite Hc.
  rewrite squeeze_all by done.
  unfold strip, rstrip. simpl. rewrite space_is_space. done.
Qed.

End Blank.

(** ** The further properties on concrete inputs

    Evaluated with the character table [latin]. *)

Lemma latin_space_not_word : @space_not_word latin.
Proof.
  intros c. cbn. unfold Latin.is_space, Latin.is_word, Latin.between.
  rewrite !orb_true_iff, !andb_true_iff, !N.leb_le, !N.eqb_eq.
  rewrite !orb_false_iff, !andb_false_iff, !N.leb_gt, !N.eqb_neq.
  lia.
Qed.

Lemma plain_word_axxam : plain_word (py "axxam").
Proof.
  split; [done|]. repeat (constructor; [split; [reflexivity|discriminate]|]).
  constructor.
Qed.

Lemma plain_word_aqbur : plain_word (py "aqbur").
Proof.
  split; [done|]. repeat (constructor; [split; [reflexivity|discriminate]|]).
  constructor.
Qed.

(** With every [os.remove] failing, the handler raises [OSError]. *)
Lemma transcribe_raises_only_on_remove_witness :
  (transcribe (Some hears_axxam_ines) canonical_order clip remove_fails ∅).1
  = Raised OSError
  ∧ OSError = OSError
  ∧ (remove_ok remove_fails (fresh (∅ : gset path)) = false
     ∨ remove_ok remove_fails
         (fresh ({[fresh (∅ : gset path)]} ∪ (∅ : gset path))) = false).
Proof.
  assert ((transcribe (Some hears_axxam_ines) canonical_order clip
             remove_fails ∅).1 = Raised OSError) as E by reflexivity.
  split; [exact E|].
  exact (transcribe_raises_only_on_remove (Some hears_axxam_ines)
           canonical_order clip remove_fails ∅ OSError E).
Defined.

(** A run in which the text of the result cannot be serialised is answered
    with the internal-error message. *)
Lemma transcribe_answer_witness :
  let r := transcribe (Some returns_object_text) canonical_order
             clip all_ok ∅ in
  answer returns_object_text canonical_order all_ok
  = {| json := Error "An internal server error occurred."; status := 500 |}
  ∧ (r.1 = Done (answer returns_object_text canonical_order all_ok)
     ∨ r.1 = Raised OSError)
  ∧ ((∀ p, remove_ok all_ok p = true) →
     r.1 = Done (answer returns_object_text canonical_order all_ok)).
Proof.
  split; [reflexivity|].
  apply (transcribe_answer returns_object_text canonical_order clip
           {| filename := "clip.wav"; payload := [82; 73; 70; 70]%N |}
           all_ok ∅); [reflexivity | discriminate].
Defined.

(** A run in which nothing goes wrong, on a model that hears
    ["axxam ines"]. *)
Lemma transcribe_success_witness :
  run_succeeds (Some hears_axxam_ines) clip all_ok ∅ (PyStr (py "axxam ines"))
  ∧ transcribe (Some hears_axxam_ines) canonical_order clip all_ok ∅
    = (Done {| json := Transcription
                 (post_process_kabyle_text canonical_order
                    (PyStr (py "axxam ines")));
               status := 200 |}, ∅).
Proof.
  assert (run_succeeds (Some hears_axxam_ines) clip all_ok ∅
            (PyStr (py "axxam ines"))) as Hr.
  { exists hears_axxam_ines,
      {| filename := "clip.wav"; payload := [82; 73; 70; 70]%N |},
      {| truthy := true; text := Some (PyStr (py "axxam ines")) |}, [].
    repeat split; (reflexivity || discriminate). }
  split; [exact Hr|].
  exact (proj2 (transcribe_success (Some hears_axxam_ines) canonical_order
                  clip all_ok ∅) (PyStr (py "axxam ines")) Hr).
Defined.

(** A run in which the export fails leaves a file behind. *)
Lemma transcribe_restores_disk_iff_witness :
  (transcribe (Some hears_axxam_ines) canonical_order clip export_fails ∅).2 = ∅
  ↔ ¬ (tmp_input_ok export_fails = true ∧ save_ok export_fails = false)
    ∧ ¬ (tmp_input_ok export_fails = true ∧ save_ok export_fails = true
         ∧ decode_ok export_fails = true
         ∧ tmp_processed_ok export_fails = true
         ∧ export_ok export_fails = false).
Proof.
  apply (transcribe_restores_disk_iff hears_axxam_ines canonical_order clip
           {| filename := "clip.wav"; payload := [82; 73; 70; 70]%N |}
           export_fails ∅); [reflexivity | discriminate | reflexivity].
Defined.

(** The letters of ["Axxam  ines"] survive correction. *)
Lemma correct_keeps_content_witness :
  py "Axxam  ines" ≠ []
  ∧ kept (correct canonical_order (py "Axxam  ines"))
    = kept (lower (py "Axxam  ines")).
Proof.
  split; [discriminate|].
  apply (correct_keeps_content canonical_order (py "Axxam  ines")).
  discriminate.
Defined.

(** A text without white space only has its hyphens squeezed. *)
Lemma correct_without_space_witness :
  correct canonical_order (py "AXXAM--ines")
  = squeeze is_hyphen HYPHEN false (lower (py "AXXAM--ines")).
Proof.
  apply (correct_without_space canonical_order (py "AXXAM--ines"));
    [discriminate | repeat constructor].
Defined.

(** The rule at the start of ["axxam ines"]. *)
Lemma match_at_annexation_witness :
  match_at (py "axxam ines")
    (annexation_pattern (sorted_all_annexable canonical_order)) 0
  = annex_at (py "axxam ines") canonical_order 0.
Proof.
  apply (match_at_annexation latin_space_not_word canonical_order
           (py "axxam ines") 0).
  exact iteration_order_canonical.
Defined.

(** ["axxam aqbur"] stays as it is, ["axxam"] being long enough but
    ["aqbur"] no particle. *)
Lemma correct_two_words_witness :
  correct canonical_order (py "axxam" ++ SPACE :: py "aqbur")
  = if bool_decide (2 ≤ length (py "axxam")
                    ∧ py "aqbur" ∈ all_annexable_particles)
    then py "axxam" ++ HYPHEN :: py "aqbur"
    else py "axxam" ++ SPACE :: py "aqbur".
Proof.
  apply (correct_two_words latin_space_not_word canonical_order
           (py "axxam") (py "aqbur"));
    [exact iteration_order_canonical | exact plain_word_axxam
    | exact plain_word_aqbur | reflexivity].
Defined.

(** Three blanks are corrected to the empty string. *)
Lemma correct_blank_witness : correct canonical_order (py "   ") = [].
Proof.
  apply (correct_blank latin_space_not_word canonical_order (py "   "));
    [exact iteration_order_canonical | repeat constructor].
Defined.
